(** * multiping: a shallow embedding of [c-impl/main.c]

    The program pings several targets at once: one worker thread per target
    runs [ping -c <counts> <target>] through [popen], rewrites each line it
    recognises into a short message and appends it to a fixed array of 100
    messages guarded by a mutex; one receiver thread prints and empties that
    array in a loop.

    The embedding follows the C text function by function.  Strings are lists
    of characters, the fixed [char] buffers are lists of exactly [STRLEN]
    characters, [int]s are [Z], [float]s and [double]s are [spec_float]s with
    the IEEE operations of [SpecFloat], and a [char *] that may be [NULL] is
    an [option].  A result [None] stands for undefined behaviour of the C
    program (a read through [NULL], an unterminated string handed to
    [printf], an index outside an array). *)

From Stdlib Require Import ZArith Ascii String List Lia DecimalString.
From Stdlib Require Import Floats.SpecFloat.
From stdpp Require Import base option list.

Local Open Scope Z_scope.

(** ** Strings and character buffers *)

(** The contents of a C string, without its terminator. *)
Definition cstr := list ascii.

Definition NUL : ascii := Ascii.zero.

Definition lit (s : string) : cstr := list_ascii_of_string s.

#[global] Instance ascii_eq_dec : EqDecision ascii := ascii_dec.

(** [#define STRLEN 256] and [#define QUEUELEN 100]. *)
Definition STRLEN : Z := 256.
Definition QUEUELEN : Z := 100.

(** [strncpy(dst, src, n)]: the first [n] characters of [src]; when [src] is
    shorter, the rest of the [n] bytes is filled with [NUL].  No terminator is
    written when [src] has [n] characters or more. *)
Definition strncpy (src : cstr) (n : Z) : list ascii :=
  take (Z.to_nat n) src ++ replicate (Z.to_nat n - length src)%nat NUL.

(** What [printf("%s", buf)] reads from a buffer: the characters before the
    first [NUL]; a buffer without [NUL] is not a string. *)
Fixpoint c_str (buf : list ascii) : option cstr :=
  match buf with
  | [] => None
  | c :: buf' => if decide (c = NUL) then Some [] else cons c <$> c_str buf'
  end.

(** ** [printf] conversions *)

(** [%d] *)
Definition fmt_d (z : Z) : cstr := lit (NilZero.string_of_int (Z.to_int z)).

Definition sign_text (s : bool) : cstr := if s then lit "-" else [].

(** Nearest integer to [num / den], ties to the even one ([den > 0]). *)
Definition round_half_even (num den : Z) : Z :=
  let q := num / den in
  match (2 * (num mod den) ?= den) with
  | Lt => q
  | Gt => q + 1
  | Eq => if Z.even q then q else q + 1
  end.

(** The digits of [n], padded with zeros on the left to [d] digits. *)
Definition fmt_frac (d : nat) (n : Z) : cstr :=
  let ds := fmt_d n in replicate (d - length ds)%nat "0"%char ++ ds.

(** [%.<d>f] for [d > 0].  The C library prints the exact binary value
    [m * 2^e] rounded to [d] decimals, ties to even.  [spec_float] keeps no
    sign for a NaN, so the sign the C library may print before [nan] is left
    out. *)
Definition fmt_f (d : nat) (x : spec_float) : cstr :=
  match x with
  | S754_zero s => sign_text s ++ lit "0." ++ replicate d "0"%char
  | S754_infinity s => sign_text s ++ lit "inf"
  | S754_nan => lit "nan"
  | S754_finite s m e =>
      let scale := 10 ^ Z.of_nat d in
      let n := round_half_even (Z.pos m * scale * 2 ^ Z.max e 0)
                               (2 ^ Z.max (- e) 0) in
      sign_text s ++ fmt_d (n / scale) ++ lit "." ++ fmt_frac d (n mod scale)
  end.

(** ** Floating point: [double] is binary64, [float] is binary32 *)

Definition double_of_int (z : Z) : spec_float :=
  binary_normalize 53 1024 z 0 false.

Definition float_of_double (x : spec_float) : spec_float :=
  match x with
  | S754_finite s m e => binary_normalize 24 128 (cond_Zopp s (Z.pos m)) e s
  | _ => x
  end.

(** [float loss = 100.0 - recv * 100.0 / sent;] with [int recv, sent]: the
    right-hand side is evaluated in [double] and rounded to [float] by the
    initialisation. *)
Definition loss_percent (sent recv : Z) : spec_float :=
  let hundred := double_of_int 100 in
  float_of_double
    (SFsub 53 1024 hundred
       (SFdiv 53 1024 (SFmul 53 1024 (double_of_int recv) hundred)
          (double_of_int sent))).

(** ** The message queue *)

(** [message_t]: two fixed buffers of [STRLEN] characters. *)
Record message_t := Message {
  msg_target : list ascii;
  msg_content : list ascii
}.

(** [task_t] *)
Record task_t := Task {
  task_target : cstr;
  task_timeout : Z;
  task_counts : Z
}.

(** The globals [message_queue] and [queue_pos].  The mutex is not part of
    the state: every access to the two globals happens between
    [pthread_mutex_lock] and [pthread_mutex_unlock], so a call of
    [enqueue_message] and one round of the loop of [receive_and_print] are
    the atomic steps of the program. *)
Record queue := Queue {
  message_queue : list message_t;
  queue_pos : Z
}.

#[global] Instance message_t_eq_dec : EqDecision message_t.
Proof. solve_decision. Defined.

(** Static storage starts zeroed. *)
Definition zero_message : message_t :=
  Message (replicate (Z.to_nat STRLEN) NUL) (replicate (Z.to_nat STRLEN) NUL).

Definition queue_init : queue :=
  Queue (replicate (Z.to_nat QUEUELEN) zero_message) 0.

(** The messages waiting to be printed: slots [0 .. queue_pos - 1]. *)
Definition pending (q : queue) : list message_t :=
  take (Z.to_nat (queue_pos q)) (message_queue q).

(** [message_queue[i]] as an lvalue: the index has to lie inside the array. *)
Definition slot (q : queue) (i : Z) : option message_t :=
  if 0 <=? i then message_queue q !! Z.to_nat i else None.

(** [void enqueue_message(char *target, char *message)] *)
Definition enqueue_message (target message : option cstr) (q : queue)
  : option queue :=
  match target with
  | None => Some q
  | Some t =>
      if queue_pos q <? QUEUELEN then
        _ ← slot q (queue_pos q);
        m ← message;
        Some (Queue (<[Z.to_nat (queue_pos q) :=
                        Message (strncpy t STRLEN) (strncpy m STRLEN)]>
                       (message_queue q))
                    (queue_pos q + 1))
      else Some q
  end.

(** [printf("%s: %s", message_queue[i].target, message_queue[i].content)] *)
Definition print_message (m : message_t) : option cstr :=
  t ← c_str (msg_target m);
  c ← c_str (msg_content m);
  Some (t ++ lit ": " ++ c).

(** One round of the [while(1)] loop of [receive_and_print]: what is written
    to the standard output, one item for each [printf], and the queue
    afterwards.  The slots keep their bytes; only [queue_pos] is reset. *)
Definition receive_and_print (q : queue) : option (list cstr * queue) :=
  if Z.of_nat (length (message_queue q)) <? queue_pos q then None
  else
    out ← mapM print_message (pending q);
    Some (out, Queue (message_queue q) 0).

(** ** Executions of the queue

    The threads meet only at the queue, one locked section at a time.  An
    execution is therefore a sequence of operations: worker [w] calling
    [enqueue_message], or the receiver doing one round of its loop. *)
Inductive op :=
  | Enqueue (worker : nat) (target message : option cstr)
  | Drain.

Record system := System {
  shared : queue;
  stdout : list cstr
}.

Definition system_init : system := System queue_init [].

Definition step (o : op) (s : system) : option system :=
  match o with
  | Enqueue _ target message =>
      q ← enqueue_message target message (shared s);
      Some (System q (stdout s))
  | Drain =>
      '(out, q) ← receive_and_print (shared s);
      Some (System q (stdout s ++ out))
  end.

Fixpoint run (ops : list op) (s : system) : option system :=
  match ops with
  | [] => Some s
  | o :: ops' => s' ← step o s; run ops' s'
  end.

(** The states some execution reaches. *)
Inductive reachable : system → Prop :=
  | reachable_init : reachable system_init
  | reachable_step o s s' : reachable s → step o s = Some s' → reachable s'.

(** The array keeps its [QUEUELEN] slots and [queue_pos] stays an index into
    it, or one past its end. *)
Definition queue_ok (q : queue) : Prop :=
  length (message_queue q) = Z.to_nat QUEUELEN ∧ 0 ≤ queue_pos q ≤ QUEUELEN.

(** ** The line extractors

    [extractor.h] is not part of the sources at hand.  Its three functions
    are taken as an interface: each looks at one line and either returns [0]
    after storing the numbers it found through its pointer arguments
    ([Some]), or returns something else ([None]); they are assumed to leave
    the line and, on failure, the pointed-to fields as they were. *)
Class Extractor := {
  extract_seq : cstr → option (Z * spec_float);
  extract_packets : cstr → option (Z * Z);
  extract_stats :
    cstr → option (spec_float * spec_float * spec_float * spec_float)
}.

(** Modelled from the spec: [ping_t] is declared in the missing
    [extractor.h]; its fields are those [ping_message] uses, the counts being
    [int]s (printed with [%d]) and the four statistics floating-point numbers
    (printed with [%.3f]). *)
Record ping_t := Ping {
  ping_target : cstr;
  ping_sent : Z;
  ping_recv : Z;
  ping_min : spec_float;
  ping_avg : spec_float;
  ping_max : spec_float;
  ping_stdev : spec_float
}.

Definition LF : ascii := "010"%char.

(** The three [sprintf] calls of [ping_message]. *)
Definition seq_text (seq : Z) (length : spec_float) : cstr :=
  lit "seq " ++ fmt_d seq ++ lit " time " ++ fmt_f 3 length ++ lit " ms"
    ++ [LF].

Definition packets_text (sent recv : Z) (loss : spec_float) : cstr :=
  lit "sent: " ++ fmt_d sent ++ lit " received: " ++ fmt_d recv
    ++ lit " loss: " ++ fmt_f 1 loss ++ lit "%" ++ [LF].

Definition stats_text (min avg max stdev : spec_float) : cstr :=
  lit "min: " ++ fmt_f 3 min ++ lit " avg: " ++ fmt_f 3 avg
    ++ lit " max: " ++ fmt_f 3 max ++ lit " stdev: " ++ fmt_f 3 stdev
    ++ lit " (ms)" ++ [LF].

(** [void ping_message(ping_t *pingres, char *message)]: the record and the
    line buffer after the call, and the queue.  The texts written by
    [sprintf] are far shorter than the [STRLEN] bytes of the buffer. *)
Definition ping_message `{Extractor} (pingres : ping_t) (message : cstr)
    (q : queue) : option (ping_t * cstr * queue) :=
  match extract_seq message with
  | Some (seq, length) =>
      Some (pingres, seq_text seq length, q)
  | None =>
      match extract_packets message with
      | Some (sent, recv) =>
          let pingres :=
            Ping (ping_target pingres) sent recv (ping_min pingres)
                 (ping_avg pingres) (ping_max pingres) (ping_stdev pingres) in
          let loss := loss_percent (ping_sent pingres) (ping_recv pingres) in
          let message :=
            packets_text (ping_sent pingres) (ping_recv pingres) loss in
          q' ← enqueue_message (Some (ping_target pingres)) (Some message) q;
          Some (pingres, message, q')
      | None =>
          match extract_stats message with
          | Some (min, avg, max, stdev) =>
              let pingres :=
                Ping (ping_target pingres) (ping_sent pingres)
                     (ping_recv pingres) min avg max stdev in
              let message :=
                stats_text (ping_min pingres) (ping_avg pingres)
                           (ping_max pingres) (ping_stdev pingres) in
              q' ← enqueue_message (Some (ping_target pingres))
                                   (Some message) q;
              Some (pingres, message, q')
          | None =>
              q' ← enqueue_message None None q;
              Some (pingres, message, q')
          end
      end
  end.

(** ** The worker thread *)

(** [sprintf(cmd, "ping -c %d %s", task->counts, task->target)] *)
Definition ping_cmd (task : task_t) : cstr :=
  lit "ping -c " ++ fmt_d (task_counts task) ++ lit " " ++ task_target task.

(** The [while (fgets(message, STRLEN, pipe) != NULL)] loop over the lines
    the pipe delivers. *)
Fixpoint exec_ping_loop `{Extractor} (pingres : ping_t) (lines : list cstr)
    (q : queue) : option (ping_t * queue) :=
  match lines with
  | [] => Some (pingres, q)
  | message :: lines' =>
      '(pingres', _, q') ← ping_message pingres message q;
      exec_ping_loop pingres' lines' q'
  end.

(** [pingres] starts with its target only; the other fields are written by
    an extractor before they are read. *)
Definition pingres_init (target : cstr) : ping_t :=
  Ping target 0 0 (S754_zero false) (S754_zero false) (S754_zero false)
       (S754_zero false).

(** [void *exec_ping(void *data)], run without interruption: what the thread
    writes to the standard error and the queue when it ends.  [popen] gives
    the lines the command prints, as [fgets] cuts them, or [None] when the
    pipe cannot be opened.  [cmd] has [STRLEN] bytes. *)
Definition exec_ping `{Extractor} (popen : cstr → option (list cstr))
    (task : task_t) (q : queue) : option (list cstr * queue) :=
  let cmd := ping_cmd task in
  if STRLEN <=? Z.of_nat (length cmd) then None
  else
    match popen cmd with
    | Some lines =>
        '(_, q') ← exec_ping_loop (pingres_init (task_target task)) lines q;
        Some ([], q')
    | None => Some ([lit "Error openning pipe"], q)
    end.

(** The call of [enqueue_message] that [ping_message] makes for a line, if
    it makes one, with the record after the call: the part of a worker that
    other threads can observe. *)
Definition ping_call `{Extractor} (pingres : ping_t) (message : cstr)
  : ping_t * option (option cstr * option cstr) :=
  match extract_seq message with
  | Some _ => (pingres, None)
  | None =>
      match extract_packets message with
      | Some (sent, recv) =>
          (Ping (ping_target pingres) sent recv (ping_min pingres)
                (ping_avg pingres) (ping_max pingres) (ping_stdev pingres),
           Some (Some (ping_target pingres),
                 Some (packets_text sent recv (loss_percent sent recv))))
      | None =>
          match extract_stats message with
          | Some (min, avg, max, stdev) =>
              (Ping (ping_target pingres) (ping_sent pingres)
                    (ping_recv pingres) min avg max stdev,
               Some (Some (ping_target pingres),
                     Some (stats_text min avg max stdev)))
          | None => (pingres, Some (None, None))
          end
      end
  end.

(** The operations worker [w] contributes to an execution. *)
Fixpoint worker_ops `{Extractor} (w : nat) (pingres : ping_t)
    (lines : list cstr) : list op :=
  match lines with
  | [] => []
  | message :: lines' =>
      match ping_call pingres message with
      | (pingres', Some (target, text)) =>
          Enqueue w target text :: worker_ops w pingres' lines'
      | (pingres', None) => worker_ops w pingres' lines'
      end
  end.

(** ** The orchestrator *)

(** What the operating system answers to [launch_workers]: whether each
    [pthread_create] and each [pthread_join] succeeds. *)
Record threads := Threads {
  receiver_created : bool;
  worker_created : nat → bool;
  worker_joined : nat → bool
}.

(** The actions of [launch_workers] that the rest of the system sees. *)
Inductive event :=
  | Receiver_started
  | Worker_started (i : nat) (task : task_t)
  | Worker_waited (i : nat)
  | Stderr (text : cstr)
  | Sleep (seconds : Z)
  | Receiver_cancelled
  | Mutex_destroyed.

(** A function either returns a value or ends the process through [exit]. *)
Inductive outcome :=
  | Returned (value : Z)
  | Exited (status : Z).

Definition EXIT_SUCCESS : Z := 0.
Definition EXIT_FAILURE : Z := 1.

(** [fprintf(stderr, "Error trying to create a new thread %d\n", i)] *)
Definition create_error (i : nat) : event :=
  Stderr (lit "Error trying to create a new thread " ++ fmt_d (Z.of_nat i)
            ++ [LF]).

(** The first loop of [launch_workers], from index [i] on: the events, and
    whether the loop ran to its end ([false]: it called [exit]). *)
Fixpoint create_workers (os : threads) (timeout counts : Z) (i : nat)
    (targets : list cstr) : list event * bool :=
  match targets with
  | [] => ([], true)
  | target :: targets' =>
      let task := Task target timeout counts in
      if worker_created os i then
        let '(evs, ok) := create_workers os timeout counts (S i) targets' in
        (Worker_started i task :: evs, ok)
      else ([create_error i], false)
  end.

(** The second loop: [pthread_join] on each thread in turn. *)
Definition join_workers (os : threads) (n : nat) : list event :=
  flat_map
    (λ i, if worker_joined os i then [Worker_waited i]
          else [Stderr (lit "Error joining thread " ++ fmt_d (Z.of_nat i)
                          ++ [LF])])
    (seq 0 n).

(** [int launch_workers(char *targets[], int n_targets, int timeout,
    int counts)], with [n_targets] the length of [targets] as [main] passes
    it. *)
Definition launch_workers (os : threads) (targets : list cstr)
    (timeout counts : Z) : list event * outcome :=
  if receiver_created os then
    match create_workers os timeout counts 0 targets with
    | (evs, true) =>
        (Receiver_started :: evs ++ join_workers os (length targets)
           ++ [Sleep 1; Receiver_cancelled; Mutex_destroyed],
         Returned 1)
    | (evs, false) => (Receiver_started :: evs, Exited EXIT_FAILURE)
    end
  else
    ([Stderr (lit "Error trying to create a new receiver thread")],
     Exited EXIT_FAILURE).

(** ** [main] *)

(** The library functions [main] relies on: [atoi], and
    [new_string_vector] of the missing [strvec.h], which cuts the list of
    targets at a separator and returns the pieces. *)
Class Library := {
  atoi : cstr → Z;
  new_string_vector : cstr → ascii → list cstr
}.

(** What one call of [getopt_long] returns: the option found, with
    [optarg]. *)
Inductive getopt :=
  | Opt_t (optarg : cstr)
  | Opt_c (optarg : option cstr)
  | Opt_o (optarg : option cstr)
  | Opt_other.

(** The [while] loop over the options: the values of [targets], [timeout]
    and [counts] after it, or [None] when the [default] case exits. *)
Fixpoint read_options `{Library} (opts : list getopt) (targets : option cstr)
    (timeout counts : Z) : option (option cstr * Z * Z) :=
  match opts with
  | [] => Some (targets, timeout, counts)
  | Opt_t optarg :: opts' => read_options opts' (Some optarg) timeout counts
  | Opt_c optarg :: opts' =>
      read_options opts' targets timeout (from_option atoi 10 optarg)
  | Opt_o optarg :: opts' =>
      read_options opts' targets (from_option atoi 1000 optarg) counts
  | Opt_other :: _ => None
  end.

(** [!x] *)
Definition lnot (x : Z) : Z := if x =? 0 then 1 else 0.

(** [int main(int argc, char *argv[])], from the answers of [getopt_long]:
    the events and the exit status of the process.  [usage] is the text of
    the usage line, which holds [argv[0]]. *)
Definition main `{Library} (os : threads) (usage : cstr) (opts : list getopt)
  : list event * Z :=
  match read_options opts None 1000 10 with
  | None => ([Stderr usage], EXIT_FAILURE)
  | Some (None, _, _) =>
      ([Stderr (lit "Error: --targets must be provided" ++ [LF])],
       EXIT_FAILURE)
  | Some (Some targets, timeout, counts) =>
      let tokens := new_string_vector targets ","%char in
      match launch_workers os tokens timeout counts with
      | (evs, Returned v) => (evs, lnot v)
      | (evs, Exited status) => (evs, status)
      end
  end.

(** ** Vocabulary of the statements *)

(** The slot contents [enqueue_message] writes for a target and a text. *)
Definition stored (e : cstr * cstr) : message_t :=
  Message (strncpy e.1 STRLEN) (strncpy e.2 STRLEN).

(** A call with two proper strings. *)
Definition entry (e : cstr * cstr) : option cstr * option cstr :=
  (Some e.1, Some e.2).

(** A sequence of calls of [enqueue_message], nothing in between. *)
Fixpoint enqueue_all (es : list (option cstr * option cstr)) (q : queue)
  : option queue :=
  match es with
  | [] => Some q
  | (target, message) :: es' =>
      q' ← enqueue_message target message q; enqueue_all es' q'
  end.

(** Operations other than [enqueue_message(NULL, ...)]. *)
Definition has_target (o : op) : bool :=
  match o with
  | Enqueue _ None _ => false
  | _ => true
  end.

(** The strings handed to [enqueue_message] are C strings: no [NUL] inside. *)
Definition c_strings (o : op) : Prop :=
  match o with
  | Enqueue _ target message =>
      from_option (λ t, NUL ∉ t) True target
      ∧ from_option (λ m, NUL ∉ m) True message
  | Drain => True
  end.

(** The calls an execution of the program is made of: a null target, or a
    target and a text that are C strings and fit their buffers with the
    terminator. *)
Definition fits (o : op) : Prop :=
  match o with
  | Enqueue _ None _ => True
  | Enqueue _ (Some t) (Some m) =>
      (NUL ∉ t) ∧ (NUL ∉ m)
      ∧ Z.of_nat (length t) < STRLEN ∧ Z.of_nat (length m) < STRLEN
  | Enqueue _ (Some _) None => False
  | Drain => True
  end.

(** The exact value of [100 - recv * 100 / sent], rounded to one decimal and
    printed: what [%0.1f] shows when no rounding error interferes. *)
Definition exact_loss_text (sent recv : Z) : cstr :=
  let n := round_half_even (1000 * (sent - recv)) sent in
  fmt_d (n / 10) ++ lit "." ++ fmt_d (n mod 10).

Definition loss_exact_upto (bound : nat) : bool :=
  forallb
    (λ s, forallb
            (λ r, bool_decide
                    (fmt_f 1 (loss_percent (Z.of_nat s) (Z.of_nat r))
                     = exact_loss_text (Z.of_nat s) (Z.of_nat r)))
            (seq 0 (S s)))
    (seq 1 bound).

(** The argument of the last [-t] among the options, if there is one. *)
Fixpoint last_targets (opts : list getopt) : option cstr :=
  match opts with
  | [] => None
  | Opt_t optarg :: opts' =>
      match last_targets opts' with
      | Some later => Some later
      | None => Some optarg
      end
  | _ :: opts' => last_targets opts'
  end.

(** The events of the first loop of [launch_workers] for the given targets,
    the first of them being number [i]. *)
Definition started (timeout counts : Z) (i : nat) (targets : list cstr)
  : list event :=
  imap (λ k target, Worker_started (i + k) (Task target timeout counts))
       targets.

(** The line the receiver prints for a call with a target and a text. *)
Definition line_of (e : cstr * cstr) : cstr := e.1 ++ lit ": " ++ e.2.

(** A target and a text that are C strings and fit their buffers. *)
Definition fits_pair (e : cstr * cstr) : Prop :=
  (NUL ∉ e.1) ∧ (NUL ∉ e.2)
  ∧ Z.of_nat (length e.1) < STRLEN ∧ Z.of_nat (length e.2) < STRLEN.

(** The calls of an execution that carry a target and a text, in order. *)
Fixpoint proper_calls (ops : list op) : list (cstr * cstr) :=
  match ops with
  | [] => []
  | Enqueue _ (Some t) (Some m) :: ops' => (t, m) :: proper_calls ops'
  | _ :: ops' => proper_calls ops'
  end.

(** No more calls with a target arrive between two rounds of the receiver
    than there are free slots: [room] at the start, [QUEUELEN] after each
    round. *)
Fixpoint within_capacity (room : nat) (ops : list op) : bool :=
  match ops with
  | [] => true
  | Enqueue _ (Some _) _ :: ops' =>
      match room with
      | O => false
      | S room' => within_capacity room' ops'
      end
  | Enqueue _ None _ :: ops' => within_capacity room ops'
  | Drain :: ops' => within_capacity (Z.to_nat QUEUELEN) ops'
  end.

(** The [optarg] of the last [-c], and of the last [-o], among the options. *)
Fixpoint last_counts (opts : list getopt) : option (option cstr) :=
  match opts with
  | [] => None
  | Opt_c optarg :: opts' =>
      match last_counts opts' with
      | Some later => Some later
      | None => Some optarg
      end
  | _ :: opts' => last_counts opts'
  end.

Fixpoint last_timeout (opts : list getopt) : option (option cstr) :=
  match opts with
  | [] => None
  | Opt_o optarg :: opts' =>
      match last_timeout opts' with
      | Some later => Some later
      | None => Some optarg
      end
  | _ :: opts' => last_timeout opts'
  end.

(** The value [main] ends up with for an [int] option: the default when the
    option does not occur or occurs without a value, [atoi] of the value
    otherwise. *)
Definition option_value `{Library} (default : Z)
    (last : option (option cstr)) : Z :=
  from_option (from_option atoi default) default last.

(** The events of the second half of [launch_workers]: a wait that
    succeeded, the pause, the end of the receiver and of the mutex. *)
Definition after_start (ev : event) : bool :=
  match ev with
  | Worker_waited _ | Sleep _ | Receiver_cancelled | Mutex_destroyed => true
  | _ => false
  end.

(** A line that [ping_message] publishes: not a reply, and a summary of
    either kind. *)
Definition published `{Extractor} (line : cstr) : Prop :=
  extract_seq line = None
  ∧ (is_Some (extract_packets line) ∨ is_Some (extract_stats line)).

(** The text [ping_message] publishes for a line, if it publishes one. *)
Definition summary_text `{Extractor} (line : cstr) : option cstr :=
  match extract_seq line with
  | Some _ => None
  | None =>
      match extract_packets line with
      | Some (sent, recv) =>
          Some (packets_text sent recv (loss_percent sent recv))
      | None =>
          match extract_stats line with
          | Some (min, avg, max, stdev) =>
              Some (stats_text min avg max stdev)
          | None => None
          end
      end
  end.

(** ** Sample environments, to run the model on *)

(** An extractor that tells the lines apart by their first letter. *)
Definition sample_extractor : Extractor := {|
  extract_seq line :=
    match line with
    | "s"%char :: _ => Some (7, float_of_double (double_of_int 12))
    | _ => None
    end;
  extract_packets line :=
    match line with
    | "p"%char :: _ => Some (10, 8)
    | _ => None
    end;
  extract_stats line :=
    match line with
    | "r"%char :: _ =>
        Some (double_of_int 1, double_of_int 2, double_of_int 3,
              double_of_int 0)
    | _ => None
    end
|}.

Fixpoint split_on (sep : ascii) (s : cstr) : list cstr :=
  match s with
  | [] => [[]]
  | c :: s' =>
      if decide (c = sep) then [] :: split_on sep s'
      else match split_on sep s' with
           | piece :: pieces => (c :: piece) :: pieces
           | [] => [[c]]
           end
  end.

Definition sample_library : Library := {|
  atoi _ := 0;
  new_string_vector s sep := split_on sep s
|}.

(** Every thread can be created and joined. *)
Definition threads_fine : threads := Threads true (λ _, true) (λ _, true).

(** The thread of the first target cannot be created. *)
Definition threads_first_fails : threads :=
  Threads true (λ i, negb (Nat.eqb i 0)) (λ _, true).

Definition sample_popen (cmd : cstr) : option (list cstr) :=
  if decide (cmd = lit "ping -c 10 a")
  then Some [lit "s1"; lit "s2"; lit "s3"; lit "p"]
  else if decide (cmd = lit "ping -c 10 b") then Some [lit "?"]
  else None.

(** * Properties *)

(** Closed decidable goals, by evaluation. *)
Ltac decide_closed := apply (bool_decide_unpack _); vm_compute; exact I.

#[global] Arguments enqueue_message : simpl never.
#[global] Arguments receive_and_print : simpl never.
#[global] Arguments strncpy : simpl never.

(** ** Strings and buffers *)

Lemma length_strncpy (s : cstr) (n : Z) :
  length (strncpy s n) = Z.to_nat n.
Proof.
  unfold strncpy. rewrite length_app, length_take, length_replicate. lia.
Qed.

Lemma strncpy_long (s : cstr) (n : Z) :
  (Z.to_nat n ≤ length s)%nat → strncpy s n = take (Z.to_nat n) s.
Proof.
  intros Hlen. unfold strncpy.
  replace (Z.to_nat n - length s)%nat with 0%nat by lia.
  apply app_nil_r.
Qed.

Lemma strncpy_prefix (s : cstr) (n : Z) :
  take (length s) (strncpy s n) = take (Z.to_nat n) s.
Proof.
  destruct (decide (length s ≤ Z.to_nat n)%nat) as [Hle|Hgt].
  - unfold strncpy. rewrite (take_ge s (Z.to_nat n)) by lia.
    apply take_app_length.
  - rewrite strncpy_long by lia. rewrite take_take. f_equal. lia.
Qed.

(** Reading back a C string from a buffer it was copied into: it comes back
    whole when it left room for the terminator, and the buffer is no string
    otherwise. *)
Lemma c_str_app_NUL (s rest : list ascii) :
  NUL ∉ s → c_str (s ++ NUL :: rest) = Some s.
Proof.
  induction s as [|c s IH]; intros Hs; [reflexivity|].
  change (c_str ((c :: s) ++ NUL :: rest))
    with (if decide (c = NUL) then Some []
          else cons c <$> c_str (s ++ NUL :: rest)).
  destruct (decide (c = NUL)) as [->|_]; [by destruct Hs; left|].
  rewrite IH; [done|]. intros Hin. apply Hs. by right.
Qed.

Lemma c_str_no_NUL (s : list ascii) : NUL ∉ s → c_str s = None.
Proof.
  induction s as [|c s IH]; intros Hs; [reflexivity|].
  change (c_str (c :: s))
    with (if decide (c = NUL) then Some [] else cons c <$> c_str s).
  destruct (decide (c = NUL)) as [->|_]; [by destruct Hs; left|].
  rewrite IH; [done|]. intros Hin. apply Hs. by right.
Qed.

Lemma c_str_strncpy (s : cstr) (n : Z) :
  NUL ∉ s →
  c_str (strncpy s n) = if decide (length s < Z.to_nat n)%nat then Some s
                        else None.
Proof.
  intros Hs. case_decide as Hlen.
  - unfold strncpy. rewrite take_ge by lia.
    destruct (Z.to_nat n - length s)%nat as [|k] eqn:Hk; [lia|].
    simpl. by apply c_str_app_NUL.
  - rewrite strncpy_long by lia. apply c_str_no_NUL.
    intros Hin. apply Hs. by eapply subseteq_take.
Qed.

(** ** One call of [enqueue_message] *)

Lemma enqueue_message_null (message : option cstr) (q : queue) :
  enqueue_message None message q = Some q.
Proof. reflexivity. Qed.

Lemma enqueue_message_full (t : cstr) (message : option cstr) (q : queue) :
  QUEUELEN ≤ queue_pos q → enqueue_message (Some t) message q = Some q.
Proof.
  intros Hfull. unfold enqueue_message.
  destruct (queue_pos q <? QUEUELEN) eqn:Hlt; [lia|done].
Qed.

Lemma slot_in_range (q : queue) :
  queue_ok q → queue_pos q < QUEUELEN → is_Some (slot q (queue_pos q)).
Proof.
  intros [Hlen [Hlo _]] Hlt. unfold slot.
  destruct (0 <=? queue_pos q) eqn:H0; [|lia].
  apply lookup_lt_is_Some. lia.
Qed.

Lemma enqueue_message_store (t m : cstr) (q : queue) :
  queue_ok q → queue_pos q < QUEUELEN →
  enqueue_message (Some t) (Some m) q
  = Some (Queue (<[Z.to_nat (queue_pos q) := stored (t, m)]> (message_queue q))
                (queue_pos q + 1)).
Proof.
  intros Hok Hlt. unfold enqueue_message.
  destruct (queue_pos q <? QUEUELEN) eqn:Hc; [|lia].
  destruct (slot_in_range q Hok Hlt) as [old ->]. reflexivity.
Qed.

Lemma queue_ok_init : queue_ok queue_init.
Proof. split; [reflexivity|]. unfold QUEUELEN. simpl. lia. Qed.

Lemma enqueue_message_ok (target message : option cstr) (q q' : queue) :
  queue_ok q → enqueue_message target message q = Some q' → queue_ok q'.
Proof.
  intros Hok Henq. destruct target as [t|];
    [|rewrite enqueue_message_null in Henq; by simplify_eq].
  destruct (decide (queue_pos q < QUEUELEN)) as [Hlt|Hge].
  - destruct message as [m|].
    + rewrite enqueue_message_store in Henq by done. simplify_eq.
      destruct Hok as [Hlen Hpos]. split; simpl; [|lia].
      by rewrite length_insert.
    + unfold enqueue_message in Henq.
      destruct (queue_pos q <? QUEUELEN); [|by simplify_eq].
      destruct (slot q (queue_pos q)); discriminate.
  - rewrite enqueue_message_full in Henq by lia. by simplify_eq.
Qed.

Lemma pending_store (e : message_t) (q : queue) :
  queue_ok q → queue_pos q < QUEUELEN →
  pending (Queue (<[Z.to_nat (queue_pos q) := e]> (message_queue q))
                 (queue_pos q + 1))
  = pending q ++ [e].
Proof.
  intros [Hlen [Hlo _]] Hlt. unfold pending. simpl.
  replace (Z.to_nat (queue_pos q + 1)) with (S (Z.to_nat (queue_pos q)))
    by lia.
  rewrite (take_S_r _ _ e) by (apply list_lookup_insert_eq; lia).
  by rewrite take_insert_ge by lia.
Qed.

Lemma length_pending (q : queue) :
  queue_ok q → length (pending q) = Z.to_nat (queue_pos q).
Proof.
  intros [Hlen Hpos]. unfold pending. rewrite length_take. lia.
Qed.

(** ** Sequences of calls: the queue keeps the first [QUEUELEN] entries *)

Lemma enqueue_all_entries (es : list (cstr * cstr)) (q : queue) :
  queue_ok q →
  ∃ q', enqueue_all (entry <$> es) q = Some q' ∧ queue_ok q'
        ∧ pending q'
          = take (Z.to_nat QUEUELEN) (pending q ++ (stored <$> es)).
Proof.
  revert q. induction es as [|[t m] es IH]; intros q Hok.
  - exists q. split_and!; [done..|]. rewrite app_nil_r.
    rewrite take_ge; [done|]. rewrite length_pending by done.
    destruct Hok as [_ Hpos]. lia.
  - simpl. destruct (decide (queue_pos q < QUEUELEN)) as [Hlt|Hge].
    + rewrite enqueue_message_store by done. simpl.
      set (q1 := Queue _ _).
      assert (queue_ok q1) as Hok1.
      { eapply (enqueue_message_ok (Some t) (Some m)); [exact Hok|].
        by apply enqueue_message_store. }
      destruct (IH q1 Hok1) as (q' & Hrun & Hok' & Hpend).
      exists q'. split_and!; [done..|]. rewrite Hpend. unfold q1.
      rewrite pending_store by done. by rewrite <- app_assoc.
    + rewrite enqueue_message_full by lia. simpl.
      destruct (IH q Hok) as (q' & Hrun & Hok' & Hpend).
      exists q'. split_and!; [done..|]. rewrite Hpend.
      assert (length (pending q) = Z.to_nat QUEUELEN) as Hfull.
      { rewrite length_pending by done. destruct Hok as [_ Hpos]. lia. }
      rewrite !take_app_le by lia. done.
Qed.

(** C4 (as amended): when [QUEUELEN + 1] entries with a target and a text
    are enqueued into the empty queue, the queue holds the first [QUEUELEN]
    of them, in their order, each as the pair of buffers [strncpy] fills; the
    last call returns normally and leaves the queue as it was. *)
Theorem queue_keeps_first_QUEUELEN (es : list (cstr * cstr))
    (last : cstr * cstr) :
  length es = Z.to_nat QUEUELEN →
  ∃ q, enqueue_all (entry <$> es) queue_init = Some q
       ∧ pending q = stored <$> es
       ∧ queue_pos q = QUEUELEN
       ∧ enqueue_message (Some last.1) (Some last.2) q = Some q
       ∧ enqueue_all (entry <$> (es ++ [last])) queue_init = Some q.
Proof.
  intros Hlen.
  destruct (enqueue_all_entries es queue_init queue_ok_init)
    as (q & Hrun & Hok & Hpend).
  change (pending queue_init) with (@nil message_t) in Hpend.
  rewrite app_nil_l, take_ge in Hpend by (rewrite length_fmap; lia).
  assert (queue_pos q = QUEUELEN) as Hpos.
  { pose proof (length_pending q Hok) as Hl.
    rewrite Hpend, length_fmap, Hlen in Hl.
    destruct Hok as [_ Hb]. lia. }
  assert (enqueue_message (Some last.1) (Some last.2) q = Some q) as Hdrop
    by (apply enqueue_message_full; lia).
  exists q. split_and!; [done..|].
  rewrite fmap_app. clear Hpend Hlen.
  revert Hrun. generalize queue_init.
  induction es as [|[t m] es IH]; intros q0 Hrun; simpl in *.
  - simplify_eq. by rewrite Hdrop.
  - destruct (enqueue_message (Some t) (Some m) q0) as [q1|]; [|done].
    simpl in *. by apply IH.
Qed.

Lemma queue_keeps_first_QUEUELEN_witness :
  ∃ q, enqueue_all (entry <$> (replicate 100 (lit "a", lit "x")
                                 ++ [(lit "b", lit "y")])) queue_init
       = Some q
       ∧ pending q = stored <$> replicate 100 (lit "a", lit "x").
Proof.
  destruct (queue_keeps_first_QUEUELEN (replicate 100 (lit "a", lit "x"))
              (lit "b", lit "y")) as (q & _ & Hpend & _ & _ & Hall).
  - reflexivity.
  - exists q. split; [exact Hall|exact Hpend].
Defined.

(** C4 as stated fails: a call with a null target is a call all the same,
    and it takes no slot.  After such a call and 99 proper ones the queue has
    room left, so the call number [QUEUELEN + 1] is stored. *)
Lemma null_target_call_takes_no_slot :
  let first := (None, None) :: replicate 99 (entry (lit "a", lit "x")) in
  let last := entry (lit "b", lit "y") in
  length first = Z.to_nat QUEUELEN
  ∧ enqueue_all (first ++ [last]) queue_init ≠ enqueue_all first queue_init
  ∧ pending <$> enqueue_all (first ++ [last]) queue_init
    = Some (replicate 99 (stored (lit "a", lit "x"))
              ++ [stored (lit "b", lit "y")]).
Proof.
  split_and!.
  - reflexivity.
  - intros Heq. apply (f_equal (fmap queue_pos)) in Heq.
    vm_compute in Heq. discriminate.
  - vm_compute. reflexivity.
Qed.

(** ** The invariant of the queue *)

Lemma receive_and_print_resets (q q' : queue) (out : list cstr) :
  receive_and_print q = Some (out, q') →
  message_queue q' = message_queue q ∧ queue_pos q' = 0.
Proof.
  unfold receive_and_print. intros Hrp.
  destruct (_ <? _); [discriminate|].
  destruct (mapM print_message (pending q)); simplify_eq/=. done.
Qed.

Lemma step_queue_ok (o : op) (s s' : system) :
  queue_ok (shared s) → step o s = Some s' → queue_ok (shared s').
Proof.
  intros Hok Hstep. destruct o as [w target message|]; simpl in Hstep.
  - destruct (enqueue_message target message (shared s)) as [q|] eqn:Henq;
      simplify_eq/=. by eapply enqueue_message_ok.
  - destruct (receive_and_print (shared s)) as [[out q]|] eqn:Hrp;
      simplify_eq/=.
    apply receive_and_print_resets in Hrp as [Hmq Hpos].
    destruct Hok as [Hlen _]. split; [congruence|].
    rewrite Hpos. unfold QUEUELEN. lia.
Qed.

Lemma reachable_queue_ok (s : system) : reachable s → queue_ok (shared s).
Proof.
  induction 1 as [|o s s' _ IH Hstep]; [apply queue_ok_init|].
  by eapply step_queue_ok.
Qed.

Lemma run_reachable (ops : list op) (s s' : system) :
  reachable s → run ops s = Some s' → reachable s'.
Proof.
  revert s. induction ops as [|o ops IH]; intros s Hs Hrun; simpl in Hrun.
  - by simplify_eq.
  - destruct (step o s) as [s1|] eqn:Hstep; [|done].
    eapply IH; [|exact Hrun]. by eapply reachable_step.
Qed.

(** C5: in every execution, whatever the order in which the workers'
    calls of [enqueue_message] and the rounds of the receiver follow each
    other, [queue_pos] stays between [0] and [QUEUELEN]; and a round of the
    receiver leaves it at [0]. *)
Theorem queue_pos_invariant (ops : list op) (s : system) :
  run ops system_init = Some s →
  0 ≤ queue_pos (shared s) ≤ QUEUELEN
  ∧ ∀ s', step Drain s = Some s' → queue_pos (shared s') = 0.
Proof.
  intros Hrun. split.
  - apply (reachable_queue_ok s). eapply run_reachable; [|exact Hrun].
    constructor.
  - intros s' Hstep. simpl in Hstep.
    destruct (receive_and_print (shared s)) as [[out q]|] eqn:Hrp;
      simplify_eq/=.
    by apply receive_and_print_resets in Hrp as [_ ?].
Qed.

Lemma queue_pos_invariant_witness :
  let ops := [Enqueue 0 (Some (lit "a")) (Some (lit "x"));
              Enqueue 1 (Some (lit "b")) (Some (lit "y")); Drain;
              Enqueue 1 None None] in
  ∃ s, run ops system_init = Some s ∧ 0 ≤ queue_pos (shared s) ≤ QUEUELEN.
Proof.
  intros ops.
  destruct (run ops system_init) as [s|] eqn:Hrun;
    [|vm_compute in Hrun; discriminate].
  exists s. split; [reflexivity|].
  exact (proj1 (queue_pos_invariant ops s Hrun)).
Defined.

(** ** What a slot holds after a call *)

(** C10: a call that finds room stores, in the slot at [queue_pos], two
    buffers of exactly [STRLEN] characters that start with the characters of
    the target and of the text; a string of [STRLEN] characters or more is
    cut to its first [STRLEN] characters, the call still succeeds and
    advances [queue_pos]. *)
Theorem stored_entry_truncated (t m : cstr) (q : queue) :
  queue_ok q → queue_pos q < QUEUELEN →
  ∃ q' e,
    enqueue_message (Some t) (Some m) q = Some q'
    ∧ queue_pos q' = queue_pos q + 1
    ∧ message_queue q' !! Z.to_nat (queue_pos q) = Some e
    ∧ length (msg_target e) = Z.to_nat STRLEN
    ∧ length (msg_content e) = Z.to_nat STRLEN
    ∧ take (length t) (msg_target e) = take (Z.to_nat STRLEN) t
    ∧ take (length m) (msg_content e) = take (Z.to_nat STRLEN) m
    ∧ (STRLEN ≤ Z.of_nat (length t) → msg_target e = take (Z.to_nat STRLEN) t)
    ∧ (STRLEN ≤ Z.of_nat (length m)
       → msg_content e = take (Z.to_nat STRLEN) m).
Proof.
  intros Hok Hlt. eexists _, (stored (t, m)).
  split; [by apply enqueue_message_store|]. simpl.
  split_and!.
  - done.
  - destruct Hok as [Hlen [Hlo _]]. apply list_lookup_insert_eq. lia.
  - apply length_strncpy.
  - apply length_strncpy.
  - apply strncpy_prefix.
  - apply strncpy_prefix.
  - intros Hlong. apply strncpy_long. lia.
  - intros Hlong. apply strncpy_long. lia.
Qed.

Lemma stored_entry_truncated_witness :
  ∃ q',
    enqueue_message (Some (replicate 300 "a"%char)) (Some (lit "x"))
      queue_init = Some q'
    ∧ (msg_target <$> message_queue q' !! 0%nat)
      = Some (replicate 256 "a"%char).
Proof.
  destruct (stored_entry_truncated (replicate 300 "a"%char) (lit "x")
              queue_init) as (q' & e & Henq & _ & Hslot & _ & _ & _ & _
                               & Hlong & _).
  - apply queue_ok_init.
  - reflexivity.
  - exists q'. split; [exact Henq|].
    change (Z.to_nat (queue_pos queue_init)) with 0%nat in Hslot.
    rewrite Hslot. simpl. f_equal. apply Hlong. vm_compute. discriminate.
Defined.

(** ** What the receiver prints *)

Lemma print_message_stored (t m line : cstr) :
  NUL ∉ t → NUL ∉ m →
  print_message (stored (t, m)) = Some line → line = t ++ lit ": " ++ m.
Proof.
  intros Ht Hm. unfold print_message, stored. simpl.
  rewrite !c_str_strncpy by done.
  repeat case_decide; simpl; intros; by simplify_eq.
Qed.

Lemma step_null_target (w : nat) (message : option cstr) (s : system) :
  step (Enqueue w None message) s = Some s.
Proof. by destruct s. Qed.

Lemma run_skips_null_targets (ops : list op) (s : system) :
  run ops s = run (List.filter has_target ops) s.
Proof.
  revert s. induction ops as [|o ops IH]; intros [q0 out0]; [done|].
  destruct o as [w [t|] message|]; simpl.
  - destruct (enqueue_message _ _ _); simpl; [apply IH|done].
  - apply IH.
  - destruct (receive_and_print _) as [[out q]|]; simpl; [apply IH|done].
Qed.

(** Where the pending messages and the printed lines come from: all of them
    satisfy what holds of the entries the calls of the execution store. *)
Lemma run_provenance (Q : message_t → Prop) (R : cstr → Prop)
    (ops : list op) (s s' : system) :
  (∀ w t m, Enqueue w (Some t) (Some m) ∈ ops → Q (stored (t, m))) →
  (∀ e line, Q e → print_message e = Some line → R line) →
  queue_ok (shared s) →
  Forall Q (pending (shared s)) → Forall R (stdout s) →
  run ops s = Some s' →
  Forall Q (pending (shared s')) ∧ Forall R (stdout s').
Proof.
  intros Hops Hprint. revert s.
  induction ops as [|o ops IH]; intros s Hok HQ HR Hrun; simpl in Hrun.
  { by simplify_eq. }
  destruct (step o s) as [s1|] eqn:Hstep; [|done]. simpl in Hrun.
  assert (queue_ok (shared s1)) as Hok1 by by eapply step_queue_ok.
  apply (IH (λ w t m Hin, Hops w t m (list_elem_of_further _ _ _ Hin)) s1);
    [done| | |done].
  - destruct o as [w [t|] [m|]|]; simpl in Hstep.
    + destruct (decide (queue_pos (shared s) < QUEUELEN)) as [Hlt|Hge].
      * rewrite enqueue_message_store in Hstep by done. simplify_eq/=.
        rewrite pending_store by done. apply Forall_app. split; [done|].
        apply Forall_singleton. eapply Hops. left.
      * rewrite enqueue_message_full in Hstep by lia. by simplify_eq/=.
    + destruct (enqueue_message _ _ _) as [q1|] eqn:Henq; simplify_eq/=.
      unfold enqueue_message in Henq.
      destruct (_ <? _); [|by simplify_eq].
      destruct (slot _ _); discriminate.
    + by simplify_eq/=.
    + by simplify_eq/=.
    + destruct (receive_and_print _) as [[out q1]|] eqn:Hrp; simplify_eq/=.
      apply receive_and_print_resets in Hrp as [_ Hpos].
      unfold pending. rewrite Hpos. simpl. constructor.
  - destruct o as [w target message|]; simpl in Hstep.
    + destruct (enqueue_message _ _ _); by simplify_eq/=.
    + destruct (receive_and_print _) as [[out q1]|] eqn:Hrp; simplify_eq/=.
      apply Forall_app. split; [done|].
      unfold receive_and_print in Hrp. destruct (_ <? _); [done|].
      destruct (mapM print_message _) as [out'|] eqn:Hmap; simplify_eq/=.
      apply mapM_Some_1 in Hmap.
      clear -Hmap HQ Hprint. induction Hmap as [|e line es out Hp _ IHm].
      * constructor.
      * apply Forall_cons in HQ as [He Hes]. constructor; eauto.
Qed.

Lemma print_message_fits (t m : cstr) :
  NUL ∉ t → NUL ∉ m →
  Z.of_nat (length t) < STRLEN → Z.of_nat (length m) < STRLEN →
  print_message (stored (t, m)) = Some (t ++ lit ": " ++ m).
Proof.
  intros Ht Hm Hlt Hlm. unfold print_message, stored. simpl.
  rewrite !c_str_strncpy by done.
  rewrite !decide_True by lia. done.
Qed.

(** An execution made of fitting calls never runs into undefined
    behaviour. *)
Lemma run_defined (ops : list op) (s : system) :
  Forall fits ops → queue_ok (shared s) →
  Forall (λ e, is_Some (print_message e)) (pending (shared s)) →
  is_Some (run ops s).
Proof.
  revert s. induction ops as [|o ops IH]; intros s Hfits Hok Hprint; [done|].
  apply Forall_cons in Hfits as [Hfit Hfits]. cbn [run].
  assert (∃ s1, step o s = Some s1
                ∧ Forall (λ e, is_Some (print_message e))
                         (pending (shared s1))) as (s1 & Hstep & Hprint1).
  { destruct o as [w [t|] [m|]|]; simpl in Hfit |- *.
    - destruct Hfit as (Ht & Hm & Hlt & Hlm).
      destruct (decide (queue_pos (shared s) < QUEUELEN)) as [Hroom|Hfull].
      + rewrite enqueue_message_store by done. eexists. split; [done|].
        simpl. rewrite pending_store by done. apply Forall_app.
        split; [done|]. apply Forall_singleton.
        by rewrite print_message_fits.
      + rewrite enqueue_message_full by lia. eexists. by split.
    - done.
    - eexists. by split.
    - eexists. by split.
    - unfold receive_and_print. destruct Hok as [Hlen Hpos].
      destruct (_ <? _) eqn:Hc; [lia|].
      apply mapM_is_Some_2 in Hprint as [out ->].
      eexists. split; [done|]. simpl. constructor. }
  rewrite Hstep. simpl. apply IH; [done| |done]. by eapply step_queue_ok.
Qed.

(** C9: a call of [enqueue_message] with a null target changes nothing, so
    an execution is the execution without these calls: they print nothing
    and cannot make the receiver fail.  An execution whose other calls carry
    strings that fit their buffers is defined to its end, and every item the
    receiver prints in it is the target of some call that had one, then
    [": "], then the text of that call. *)
Theorem printed_lines_have_target (ops : list op) :
  (∀ w message s, step (Enqueue w None message) s = Some s)
  ∧ (∀ s0, run ops s0 = run (List.filter has_target ops) s0)
  ∧ (Forall fits ops → is_Some (run ops system_init))
  ∧ (∀ s, Forall c_strings ops → run ops system_init = Some s →
       Forall (λ line, ∃ w t m, Enqueue w (Some t) (Some m) ∈ ops
                                 ∧ line = t ++ lit ": " ++ m)
              (stdout s)).
Proof.
  split_and!.
  - apply step_null_target.
  - apply run_skips_null_targets.
  - intros Hfits. apply run_defined; [done|apply queue_ok_init|constructor].
  - intros s Hstr Hrun.
    refine (proj2 (run_provenance
      (λ e, ∃ w t m, Enqueue w (Some t) (Some m) ∈ ops ∧ (NUL ∉ t) ∧ (NUL ∉ m)
                     ∧ e = stored (t, m)) _ ops system_init s _ _ _ _ _ Hrun)).
    + intros w t m Hin. exists w, t, m.
      rewrite Forall_forall in Hstr. destruct (Hstr _ Hin) as [Ht Hm]. done.
    + intros e line (w & t & m & Hin & Ht & Hm & ->) Hp.
      exists w, t, m. split; [done|]. by apply print_message_stored.
    + apply queue_ok_init.
    + constructor.
    + constructor.
Qed.

Lemma printed_lines_have_target_witness :
  let ops := [Enqueue 0 (Some (lit "a")) (Some (lit "x")); Enqueue 1 None None;
              Drain] in
  ∃ s, run ops system_init = Some s
       ∧ stdout s = [lit "a: x"]
       ∧ Forall (λ line, ∃ w t m, Enqueue w (Some t) (Some m) ∈ ops
                                   ∧ line = t ++ lit ": " ++ m)
                (stdout s).
Proof.
  intros ops.
  destruct (printed_lines_have_target ops) as (_ & _ & Hdef & Hlines).
  destruct Hdef as [s Hrun].
  { constructor; [|constructor; [exact I|constructor; [exact I|constructor]]].
    split_and!; simpl; [decide_closed..|reflexivity|reflexivity]. }
  exists s. split; [exact Hrun|]. split.
  - vm_compute in Hrun. injection Hrun as <-. reflexivity.
  - apply Hlines; [|exact Hrun].
    constructor; [split; simpl; decide_closed|].
    constructor; [by split|]. constructor; [exact I|]. constructor.
Defined.

(** ** One line of output: [ping_message] *)

#[global] Arguments loss_percent : simpl never.
#[global] Arguments fmt_f : simpl never.
#[global] Arguments fmt_d : simpl never.

Section Worker.

Context `{Extractor}.

(** [ping_message] is its one call of [enqueue_message], if any. *)
Lemma ping_message_call (pingres : ping_t) (line : cstr) (q : queue) :
  (λ r, (r.1.1, r.2)) <$> ping_message pingres line q
  = match ping_call pingres line with
    | (pingres', Some (target, text)) =>
        q' ← enqueue_message target text q; Some (pingres', q')
    | (pingres', None) => Some (pingres', q)
    end.
Proof.
  unfold ping_message, ping_call.
  destruct (extract_seq line) as [[seq t]|]; [done|].
  destruct (extract_packets line) as [[sent recv]|]; simpl.
  { by destruct (enqueue_message _ _ _). }
  destruct (extract_stats line) as [[[[min avg] max] stdev]|]; simpl.
  { by destruct (enqueue_message _ _ _). }
  done.
Qed.

(** A worker left alone does to the queue what its operations do. *)
Lemma exec_ping_loop_run (w : nat) (pingres : ping_t) (lines : list cstr)
    (q : queue) (out : list cstr) :
  snd <$> exec_ping_loop pingres lines q
  = shared <$> run (worker_ops w pingres lines) (System q out).
Proof.
  revert pingres q. induction lines as [|line lines IH]; intros pingres q.
  { done. }
  pose proof (ping_message_call pingres line q) as Hcall.
  cbn [exec_ping_loop worker_ops].
  destruct (ping_call pingres line) as [pingres' [[target text]|]].
  - cbn [run step shared stdout].
    destruct (enqueue_message target text q) as [q'|]; simpl in Hcall.
    + destruct (ping_message pingres line q) as [[[p1 m1] q1]|];
        simplify_eq/=. apply IH.
    + by destruct (ping_message pingres line q) as [[[p1 m1] q1]|].
  - destruct (ping_message pingres line q) as [[[p1 m1] q1]|];
      simplify_eq/=. apply IH.
Qed.

(** C1: a line that [extract_seq] accepts is rewritten as
    ["seq <n> time <t> ms"] in the line buffer, and that is all: the
    function returns without calling [enqueue_message], the queue is as
    before, and the line adds no operation to the execution. *)
Theorem sequence_reply_not_enqueued (pingres : ping_t) (line : cstr)
    (q : queue) (seq : Z) (t : spec_float) :
  extract_seq line = Some (seq, t) →
  ping_message pingres line q
  = Some (pingres,
          lit "seq " ++ fmt_d seq ++ lit " time " ++ fmt_f 3 t
            ++ lit " ms" ++ [LF],
          q)
  ∧ ∀ w lines,
      worker_ops w pingres (line :: lines) = worker_ops w pingres lines.
Proof.
  intros Hseq. split.
  - unfold ping_message. by rewrite Hseq.
  - intros w lines. cbn [worker_ops]. unfold ping_call. by rewrite Hseq.
Qed.

(** C6: [ping_message] tries [extract_seq], then [extract_packets], then
    [extract_stats], and takes the first that accepts the line; a line none
    accepts changes nothing.  Each line falls in exactly one of the four
    cases, and the call always returns. *)
Theorem line_classifier_priority (pingres : ping_t) (line : cstr)
    (q : queue) :
  (∀ seq t, extract_seq line = Some (seq, t) →
     ping_message pingres line q = Some (pingres, seq_text seq t, q))
  ∧ (∀ sent recv,
       extract_seq line = None → extract_packets line = Some (sent, recv) →
       let text := packets_text sent recv (loss_percent sent recv) in
       ping_message pingres line q
       = q' ← enqueue_message (Some (ping_target pingres)) (Some text) q;
         Some (Ping (ping_target pingres) sent recv (ping_min pingres)
                 (ping_avg pingres) (ping_max pingres)
                 (ping_stdev pingres), text, q'))
  ∧ (∀ min avg max stdev,
       extract_seq line = None → extract_packets line = None →
       extract_stats line = Some (min, avg, max, stdev) →
       let text := stats_text min avg max stdev in
       ping_message pingres line q
       = q' ← enqueue_message (Some (ping_target pingres)) (Some text) q;
         Some (Ping (ping_target pingres) (ping_sent pingres)
                 (ping_recv pingres) min avg max stdev, text, q'))
  ∧ (extract_seq line = None → extract_packets line = None →
     extract_stats line = None →
     ping_message pingres line q = Some (pingres, line, q))
  ∧ (queue_ok q → is_Some (ping_message pingres line q)).
Proof.
  split_and!.
  - intros seq t Hseq. unfold ping_message. by rewrite Hseq.
  - intros sent recv Hseq Hpk. unfold ping_message. by rewrite Hseq, Hpk.
  - intros min avg max stdev Hseq Hpk Hst. unfold ping_message.
    by rewrite Hseq, Hpk, Hst.
  - intros Hseq Hpk Hst. unfold ping_message. by rewrite Hseq, Hpk, Hst.
  - intros Hok. unfold ping_message.
    assert (∀ t m, is_Some (enqueue_message (Some t) (Some m) q)) as Henq.
    { intros t m. destruct (decide (queue_pos q < QUEUELEN)).
      - by rewrite enqueue_message_store.
      - rewrite enqueue_message_full by lia. done. }
    destruct (extract_seq line) as [[seq t]|]; [done|].
    destruct (extract_packets line) as [[sent recv]|].
    { simpl. by destruct (Henq (ping_target pingres)
               (packets_text sent recv (loss_percent sent recv))) as [? ->]. }
    destruct (extract_stats line) as [[[[min avg] max] stdev]|]; [|done].
    simpl. by destruct (Henq (ping_target pingres)
               (stats_text min avg max stdev)) as [? ->].
Qed.

(** C3: the command line is made of [counts] and [target]; the timeout of
    the task has no part in it, nor in anything else the worker does. *)
Theorem timeout_not_passed (popen : cstr → option (list cstr))
    (target : cstr) (timeout timeout' counts : Z) (q : queue) :
  ping_cmd (Task target timeout counts)
  = lit "ping -c " ++ fmt_d counts ++ lit " " ++ target
  ∧ ping_cmd (Task target timeout counts)
    = ping_cmd (Task target timeout' counts)
  ∧ exec_ping popen (Task target timeout counts) q
    = exec_ping popen (Task target timeout' counts) q.
Proof. done. Qed.

End Worker.

(** ** The loss percentage *)

Lemma loss_exact_small (sent recv : Z) :
  0 < sent ≤ 100 → 0 ≤ recv ≤ sent →
  fmt_f 1 (loss_percent sent recv) = exact_loss_text sent recv.
Proof.
  intros Hs Hr.
  assert (loss_exact_upto 100 = true) as Hall by (vm_compute; reflexivity).
  unfold loss_exact_upto in Hall. rewrite forallb_forall in Hall.
  specialize (Hall (Z.to_nat sent)). rewrite forallb_forall in Hall.
  specialize (Hall ltac:(apply in_seq; lia) (Z.to_nat recv)
                ltac:(apply in_seq; lia)).
  apply bool_decide_eq_true_1 in Hall.
  by rewrite !Z2Nat.id in Hall by lia.
Qed.

(** C7: a line that [extract_packets] accepts (and [extract_seq] does not),
    with [sent > 0], is published for the target of the worker as
    ["sent: <s> received: <r> loss: <p>%"], where [<p>] is the [float]
    [100.0 - recv * 100.0 / sent] printed with one decimal.  For up to 100
    packets sent, [<p>] is the exact value of [100 - 100 * recv / sent]
    rounded to one decimal; for 10 sent and 8 received it is [20.0]. *)
Theorem summary_counts_message `{Extractor} (pingres : ping_t) (line : cstr)
    (q : queue) (sent recv : Z) :
  extract_seq line = None → extract_packets line = Some (sent, recv) →
  0 < sent → queue_ok q → queue_pos q < QUEUELEN →
  let text :=
    lit "sent: " ++ fmt_d sent ++ lit " received: " ++ fmt_d recv
      ++ lit " loss: " ++ fmt_f 1 (loss_percent sent recv) ++ lit "%"
      ++ [LF] in
  (∃ pingres' q',
     ping_message pingres line q = Some (pingres', text, q')
     ∧ ping_sent pingres' = sent ∧ ping_recv pingres' = recv
     ∧ pending q' = pending q ++ [stored (ping_target pingres, text)])
  ∧ (sent ≤ 100 → 0 ≤ recv ≤ sent →
     fmt_f 1 (loss_percent sent recv) = exact_loss_text sent recv)
  ∧ (sent = 10 → recv = 8 →
     text = lit "sent: 10 received: 8 loss: 20.0%" ++ [LF]).
Proof.
  intros Hseq Hpk Hsent Hok Hroom text. split_and!.
  - unfold ping_message. rewrite Hseq, Hpk. simpl.
    rewrite enqueue_message_store by done. simpl.
    eexists _, _. split; [reflexivity|]. simpl. split_and!; [done..|].
    by apply pending_store.
  - intros Hle Hrecv. apply loss_exact_small; lia.
  - intros -> ->. vm_compute. reflexivity.
Qed.

Lemma summary_counts_message_witness :
  ∃ pingres' q',
    ping_message (H := sample_extractor) (pingres_init (lit "a")) (lit "p")
      queue_init
    = Some (pingres', lit "sent: 10 received: 8 loss: 20.0%" ++ [LF], q')
    ∧ pending q'
      = [stored (lit "a", lit "sent: 10 received: 8 loss: 20.0%" ++ [LF])].
Proof.
  destruct (summary_counts_message (H := sample_extractor)
              (pingres_init (lit "a")) (lit "p") queue_init 10 8)
    as ((pingres' & q' & Hpm & _ & _ & Hpend) & _ & Htext).
  - reflexivity.
  - reflexivity.
  - lia.
  - apply queue_ok_init.
  - reflexivity.
  - exists pingres', q'. rewrite <- Htext by reflexivity.
    split; [exact Hpm|exact Hpend].
Defined.

Lemma sequence_reply_not_enqueued_witness :
  ping_message (H := sample_extractor) (pingres_init (lit "a")) (lit "s1")
    queue_init
  = Some (pingres_init (lit "a"), lit "seq 7 time 12.000 ms" ++ [LF],
          queue_init).
Proof.
  destruct (sequence_reply_not_enqueued (H := sample_extractor)
              (pingres_init (lit "a")) (lit "s1") queue_init 7
              (float_of_double (double_of_int 12))) as [Hpm _].
  - reflexivity.
  - exact Hpm.
Defined.

Lemma line_classifier_priority_witness :
  ping_message (H := sample_extractor) (pingres_init (lit "a")) (lit "?")
    queue_init
  = Some (pingres_init (lit "a"), lit "?", queue_init)
  ∧ is_Some (ping_message (H := sample_extractor) (pingres_init (lit "a"))
               (lit "r") queue_init).
Proof.
  destruct (line_classifier_priority (H := sample_extractor)
              (pingres_init (lit "a")) (lit "?") queue_init)
    as (_ & _ & _ & Hnone & _).
  destruct (line_classifier_priority (H := sample_extractor)
              (pingres_init (lit "a")) (lit "r") queue_init)
    as (_ & _ & _ & _ & Htotal).
  split.
  - apply Hnone; reflexivity.
  - apply Htotal, queue_ok_init.
Defined.

(** The run of the worked example: target [a] prints three replies and a
    summary, target [b] a line nobody recognises; then the receiver makes a
    round.  One line comes out. *)
Lemma three_replies_one_summary_print_one_line :
  let a_ops := worker_ops (H := sample_extractor) 0 (pingres_init (lit "a"))
                 [lit "s1"; lit "s2"; lit "s3"; lit "p"] in
  let b_ops := worker_ops (H := sample_extractor) 1 (pingres_init (lit "b"))
                 [lit "?"] in
  stdout <$> run (a_ops ++ b_ops ++ [Drain]) system_init
  = Some [lit "a: sent: 10 received: 8 loss: 20.0%" ++ [LF]].
Proof. vm_compute. reflexivity. Qed.

(** With a timeout of 500 the command is the same as with any other. *)
Lemma timeout_not_passed_example :
  ping_cmd (Task (lit "localhost") 500 3) = lit "ping -c 3 localhost".
Proof. reflexivity. Qed.

(** ** The orchestrator *)

Lemma create_workers_all (os : threads) (timeout counts : Z) (i : nat)
    (targets : list cstr) :
  (∀ k, (k < length targets)%nat → worker_created os (i + k) = true) →
  create_workers os timeout counts i targets
  = (started timeout counts i targets, true).
Proof.
  revert i. induction targets as [|t targets IH]; intros i Hall; [done|].
  cbn [create_workers].
  assert (worker_created os i = true) as ->
    by (rewrite <- (Nat.add_0_r i); apply Hall; simpl; lia).
  rewrite (IH (S i)).
  - unfold started. rewrite imap_cons, Nat.add_0_r. do 2 f_equal.
    apply imap_ext. intros k x _. simpl. f_equal. lia.
  - intros k Hk. replace (S i + k)%nat with (i + S k)%nat by lia.
    apply Hall. simpl. lia.
Qed.

Lemma create_workers_fail (os : threads) (timeout counts : Z) (i k : nat)
    (targets : list cstr) :
  (k < length targets)%nat →
  worker_created os (i + k) = false →
  (∀ j, (j < k)%nat → worker_created os (i + j) = true) →
  create_workers os timeout counts i targets
  = (started timeout counts i (take k targets) ++ [create_error (i + k)],
     false).
Proof.
  revert i k. induction targets as [|t targets IH]; intros i k Hk Hfail Hbefore.
  { simpl in Hk. lia. }
  cbn [create_workers]. destruct k as [|k].
  - rewrite Nat.add_0_r in Hfail |- *. by rewrite Hfail.
  - assert (worker_created os i = true) as ->
      by (rewrite <- (Nat.add_0_r i); apply Hbefore; lia).
    rewrite (IH (S i) k).
    + unfold started. cbn [take]. rewrite imap_cons, Nat.add_0_r.
      replace (S i + k)%nat with (i + S k)%nat by lia.
      rewrite <- app_comm_cons. do 3 f_equal.
      apply imap_ext. intros j x _. simpl. f_equal. lia.
    + simpl in Hk. lia.
    + by replace (S i + k)%nat with (i + S k)%nat by lia.
    + intros j Hj. replace (S i + j)%nat with (i + S j)%nat by lia.
      apply Hbefore. lia.
Qed.

Lemma create_workers_ok (os : threads) (timeout counts : Z) (i : nat)
    (targets : list cstr) :
  (create_workers os timeout counts i targets).2 = true
  ↔ ∀ k, (k < length targets)%nat → worker_created os (i + k) = true.
Proof.
  split.
  - revert i. induction targets as [|t targets IH]; intros i Hok k Hk.
    { simpl in Hk. lia. }
    cbn [create_workers] in Hok.
    destruct (worker_created os i) eqn:Hi; [|done].
    destruct (create_workers os timeout counts (S i) targets)
      as [evs ok] eqn:Hrest.
    simpl in Hok. subst ok. destruct k as [|k].
    + by rewrite Nat.add_0_r.
    + replace (i + S k)%nat with (S i + k)%nat by lia.
      apply IH; [by rewrite Hrest|]. simpl in Hk. lia.
  - intros Hall. by rewrite create_workers_all.
Qed.

Lemma elem_of_join_workers (os : threads) (n i : nat) :
  (i < n)%nat → worker_joined os i = true →
  Worker_waited i ∈ join_workers os n.
Proof.
  intros Hi Hjoin. unfold join_workers.
  apply list_elem_of_In, in_flat_map. exists i. split.
  - apply in_seq. lia.
  - rewrite Hjoin. by left.
Qed.

(** C2 (as amended): a worker whose [popen] fails reports it and ends,
    leaving the queue alone.  As long as every thread can be created,
    [launch_workers] starts a worker for every target, calls [pthread_join]
    for every one of them, cancels the receiver and returns [1].  When the
    thread of target [k] cannot be created, it reports that and ends the
    process with [EXIT_FAILURE] on the spot: the targets after [k] get no
    worker and no worker is waited for. *)
Theorem worker_failures (os : threads) (targets : list cstr)
    (timeout counts : Z) :
  receiver_created os = true →
  ((∀ i, (i < length targets)%nat → worker_created os i = true) →
   launch_workers os targets timeout counts
   = (Receiver_started :: started timeout counts 0 targets
        ++ join_workers os (length targets)
        ++ [Sleep 1; Receiver_cancelled; Mutex_destroyed],
      Returned 1)
   ∧ ∀ i, (i < length targets)%nat → worker_joined os i = true →
       Worker_waited i ∈ (launch_workers os targets timeout counts).1)
  ∧ (∀ k, (k < length targets)%nat → worker_created os k = false →
       (∀ j, (j < k)%nat → worker_created os j = true) →
       launch_workers os targets timeout counts
       = (Receiver_started :: started timeout counts 0 (take k targets)
            ++ [create_error k],
          Exited EXIT_FAILURE))
  ∧ (∀ (E : Extractor) popen task q,
       Z.of_nat (length (ping_cmd task)) < STRLEN →
       popen (ping_cmd task) = None →
       exec_ping popen task q = Some ([lit "Error openning pipe"], q)).
Proof.
  intros Hrecv. split_and!.
  - intros Hall.
    assert (launch_workers os targets timeout counts
            = (Receiver_started :: started timeout counts 0 targets
                 ++ join_workers os (length targets)
                 ++ [Sleep 1; Receiver_cancelled; Mutex_destroyed],
               Returned 1)) as Heq.
    { unfold launch_workers. rewrite Hrecv.
      by rewrite create_workers_all by done. }
    split; [exact Heq|]. intros i Hi Hjoin. rewrite Heq. simpl.
    right. apply elem_of_app. right. apply elem_of_app. left.
    by apply elem_of_join_workers.
  - intros k Hk Hfail Hbefore. unfold launch_workers. rewrite Hrecv.
    by rewrite (create_workers_fail os timeout counts 0 k) by done.
  - intros E popen task q Hfit Hpopen. unfold exec_ping.
    destruct (STRLEN <=? _) eqn:Hc; [lia|]. by rewrite Hpopen.
Qed.

Lemma worker_failures_witness :
  launch_workers threads_fine [lit "a"; lit "b"] 1000 10
  = ([Receiver_started;
      Worker_started 0 (Task (lit "a") 1000 10);
      Worker_started 1 (Task (lit "b") 1000 10);
      Worker_waited 0; Worker_waited 1;
      Sleep 1; Receiver_cancelled; Mutex_destroyed],
     Returned 1)
  ∧ exec_ping (H := sample_extractor) sample_popen (Task (lit "c") 1000 10)
      queue_init
    = Some ([lit "Error openning pipe"], queue_init).
Proof.
  destruct (worker_failures threads_fine [lit "a"; lit "b"] 1000 10 eq_refl)
    as ([Hrun _] & _ & Hpopen).
  - reflexivity.
  - split; [exact Hrun|]. apply Hpopen; [|reflexivity].
    vm_compute. reflexivity.
Defined.

(** C2 as stated fails for the failure [launch_workers] itself can see: with
    two targets, when the thread of the first cannot be created the process
    exits with [EXIT_FAILURE], and the second target, whose thread could have
    been created, gets no worker at all. *)
Lemma thread_creation_failure_aborts :
  let run := launch_workers threads_first_fails [lit "a"; lit "b"] 1000 10 in
  worker_created threads_first_fails 1 = true
  ∧ run = ([Receiver_started; create_error 0], Exited EXIT_FAILURE)
  ∧ Returned 1 ≠ run.2
  ∧ (∀ task, Worker_started 1 task ∉ run.1)
  ∧ Worker_waited 1 ∉ run.1.
Proof.
  split_and!; [done..| |].
  - intros task Hin. vm_compute in Hin.
    repeat (apply elem_of_cons in Hin as [Hin|Hin]; [discriminate|]).
    by apply elem_of_nil in Hin.
  - intros Hin. vm_compute in Hin.
    repeat (apply elem_of_cons in Hin as [Hin|Hin]; [discriminate|]).
    by apply elem_of_nil in Hin.
Qed.

(** ** The exit status *)

Lemma read_options_spec `{Library} (opts : list getopt)
    (targets : option cstr) (timeout counts : Z) :
  match read_options opts targets timeout counts with
  | None => Opt_other ∈ opts
  | Some (targets', _, _) =>
      (Opt_other ∉ opts)
      ∧ targets' = match last_targets opts with
                   | Some later => Some later
                   | None => targets
                   end
  end.
Proof.
  revert targets timeout counts.
  induction opts as [|o opts IH]; intros targets timeout counts.
  { split; [apply not_elem_of_nil|done]. }
  destruct o as [optarg|optarg|optarg|]; cbn [read_options last_targets].
  - specialize (IH (Some optarg) timeout counts).
    destruct (read_options opts _ _ _) as [[[tg t] c]|].
    + destruct IH as [Hno ->]. split.
      * apply not_elem_of_cons. done.
      * by destruct (last_targets opts).
    + by right.
  - specialize (IH targets timeout (from_option atoi 10 optarg)).
    destruct (read_options opts _ _ _) as [[[tg t] c]|].
    + destruct IH as [Hno ->]. split; [|done]. by apply not_elem_of_cons.
    + by right.
  - specialize (IH targets (from_option atoi 1000 optarg) counts).
    destruct (read_options opts _ _ _) as [[[tg t] c]|].
    + destruct IH as [Hno ->]. split; [|done]. by apply not_elem_of_cons.
    + by right.
  - left.
Qed.

Lemma create_workers_joined (r : bool) (w j j' : nat → bool)
    (timeout counts : Z) (i : nat) (targets : list cstr) :
  create_workers (Threads r w j) timeout counts i targets
  = create_workers (Threads r w j') timeout counts i targets.
Proof.
  revert i. induction targets as [|t targets IH]; intros i; [done|].
  cbn [create_workers worker_created]. by rewrite IH.
Qed.

Lemma main_status `{Library} (os : threads) (usage : cstr)
    (opts : list getopt) :
  (main os usage opts).2
  = match read_options opts None 1000 10 with
    | Some (Some targets, timeout, counts) =>
        if receiver_created os
           && (create_workers os timeout counts 0
                 (new_string_vector targets ","%char)).2
        then EXIT_SUCCESS else EXIT_FAILURE
    | _ => EXIT_FAILURE
    end.
Proof.
  unfold main, launch_workers.
  destruct (read_options opts None 1000 10)
    as [[[[targets|] timeout] counts]|]; [|done..].
  destruct (receiver_created os); [|done].
  by destruct (create_workers os timeout counts 0 _) as [evs [|]].
Qed.

(** C8 (as amended): the process ends with the success status exactly when
    no option was refused, [-t] was given, and the receiver thread and one
    thread for each piece of the target list could be created; otherwise it
    ends with [EXIT_FAILURE].  Whether the list has any piece is not looked
    at.  What [pthread_join] answers has no influence on the status (and
    what [popen] answers is never seen by [main]). *)
Theorem exit_status `{Library} (os : threads) (usage : cstr)
    (opts : list getopt) :
  let status := (main os usage opts).2 in
  (status = EXIT_SUCCESS
   ↔ (Opt_other ∉ opts)
     ∧ ∃ targets, last_targets opts = Some targets
         ∧ receiver_created os = true
         ∧ ∀ i, (i < length (new_string_vector targets ","%char))%nat →
             worker_created os i = true)
  ∧ (status ≠ EXIT_SUCCESS → status = EXIT_FAILURE)
  ∧ (∀ joined,
       (main (Threads (receiver_created os) (worker_created os) joined)
             usage opts).2 = status).
Proof.
  intros status. subst status. split_and!.
  - rewrite main_status.
    pose proof (read_options_spec opts None 1000 10) as Hopts.
    destruct (read_options opts None 1000 10)
      as [[[[targets|] timeout] counts]|].
    + destruct Hopts as [Hno Hlast].
      assert (last_targets opts = Some targets) as Htg
        by (destruct (last_targets opts); congruence).
      pose proof (create_workers_ok os timeout counts 0
                    (new_string_vector targets ","%char)) as Hcreate.
      destruct (receiver_created os); simpl.
      * destruct (create_workers os timeout counts 0 _).2.
        -- split; [|done]. intros _. split; [done|]. exists targets.
           split_and!; [done..|]. by apply Hcreate.
        -- split; [done|]. intros (_ & targets' & Htg' & _ & Hall).
           simplify_eq. assert (false = true) by by apply Hcreate. done.
      * split; [done|]. by intros (_ & targets' & _ & ? & _).
    + destruct Hopts as [_ Hlast]. split; [done|].
      intros (_ & targets' & Htg & _). by rewrite Htg in Hlast.
    + split; [done|]. by intros [? _].
  - rewrite main_status.
    destruct (read_options opts None 1000 10)
      as [[[[targets|] timeout] counts]|]; [|done..].
    by destruct (_ && _).
  - intros joined. rewrite !main_status.
    destruct (read_options opts None 1000 10)
      as [[[[targets|] timeout] counts]|]; [|done..].
    destruct os as [r w j]. simpl.
    by rewrite (create_workers_joined r w joined j).
Qed.

Lemma exit_status_witness :
  (main (H := sample_library) threads_fine [] [Opt_t (lit "a,b")]).2
  = EXIT_SUCCESS.
Proof.
  destruct (exit_status (H := sample_library) threads_fine []
              [Opt_t (lit "a,b")]) as [[_ Hback] _].
  apply Hback. split.
  - intros Hin. apply list_elem_of_singleton in Hin. discriminate.
  - exists (lit "a,b"). split_and!; reflexivity.
Defined.

(** C8 as stated fails: with the list [a,b] given, which is neither empty
    nor malformed, the failure to create the first worker thread turns the
    exit status into [EXIT_FAILURE]. *)
Lemma thread_creation_failure_changes_exit_status :
  new_string_vector (Library := sample_library) (lit "a,b") ","%char
  = [lit "a"; lit "b"]
  ∧ (main (H := sample_library) threads_fine [] [Opt_t (lit "a,b")]).2
    = EXIT_SUCCESS
  ∧ (main (H := sample_library) threads_first_fails [] [Opt_t (lit "a,b")]).2
    = EXIT_FAILURE.
Proof. split_and!; reflexivity. Qed.

(** * Further properties of the code *)

(** ** The queue and the receiver together *)


Lemma print_message_fits_pair (e : cstr * cstr) :
  fits_pair e → print_message (stored e) = Some (line_of e).
Proof.
  destruct e as [t m]. intros (Ht & Hm & Hlt & Hlm).
  by apply print_message_fits.
Qed.

Lemma receive_and_print_stored (q : queue) (ps : list (cstr * cstr)) :
  queue_ok q → pending q = stored <$> ps → Forall fits_pair ps →
  receive_and_print q = Some (line_of <$> ps, Queue (message_queue q) 0).
Proof.
  intros [Hlen Hpos] Hpend Hfit. unfold receive_and_print.
  destruct (_ <? _) eqn:Hc; [lia|].
  rewrite Hpend. erewrite mapM_Some_2; [done|].
  apply Forall2_fmap, Forall_Forall2_diag.
  eapply Forall_impl; [exact Hfit|]. apply print_message_fits_pair.
Qed.

(** What an execution of fitting calls has printed or holds ready to print,
    [stdout] and then the pending messages, only ever grows at its end, by
    calls in the order they were made; it grows by every call while the
    calls stay within the capacity. *)
Lemma run_log (ops : list op) (s : system) (ps : list (cstr * cstr)) :
  Forall fits ops → queue_ok (shared s) →
  pending (shared s) = stored <$> ps → Forall fits_pair ps →
  ∃ s' ps' kept,
    run ops s = Some s' ∧ queue_ok (shared s')
    ∧ pending (shared s') = stored <$> ps' ∧ Forall fits_pair ps'
    ∧ kept `sublist_of` proper_calls ops
    ∧ stdout s' ++ (line_of <$> ps')
      = stdout s ++ (line_of <$> ps) ++ (line_of <$> kept)
    ∧ ∀ room, within_capacity room ops = true →
        (length ps + room ≤ Z.to_nat QUEUELEN)%nat →
        kept = proper_calls ops.
Proof.
  revert s ps. induction ops as [|o ops IH]; intros s ps Hfits Hok Hpend Hps.
  { exists s, ps, []. split_and!; [done..|by rewrite app_nil_r|done]. }
  apply Forall_cons in Hfits as [Hfit Hfits].
  assert (length ps = Z.to_nat (queue_pos (shared s))) as Hlen
    by (rewrite <- (length_pending _ Hok), Hpend; by rewrite length_fmap).
  destruct o as [w [t|] [m|]|]; cbn [run proper_calls within_capacity].
  - destruct (decide (queue_pos (shared s) < QUEUELEN)) as [Hroom|Hfull].
    + cbn [step]. rewrite enqueue_message_store by done. simpl.
      set (s1 := System _ _).
      destruct (IH s1 (ps ++ [(t, m)])) as
        (s' & ps' & kept & Hrun & Hok' & Hpend' & Hps' & Hsub & Hlog & Hcap).
      * done.
      * eapply (enqueue_message_ok (Some t) (Some m)); [exact Hok|].
        by apply enqueue_message_store.
      * unfold s1. simpl. rewrite pending_store by done.
        by rewrite Hpend, fmap_app.
      * apply Forall_app. split; [done|]. by apply Forall_singleton.
      * exists s', ps', ((t, m) :: kept). split_and!; [done..| | |].
        -- by constructor.
        -- rewrite Hlog. unfold s1. simpl.
           rewrite fmap_app, <- !app_assoc. done.
        -- intros [|room] Hwithin Hle; [done|]. f_equal.
           apply (Hcap room Hwithin). rewrite length_app. simpl. lia.
    + cbn [step]. rewrite enqueue_message_full by lia. simpl.
      destruct (IH (System (shared s) (stdout s)) ps) as
        (s' & ps' & kept & Hrun & Hok' & Hpend' & Hps' & Hsub & Hlog & Hcap);
        [done..|].
      exists s', ps', kept. split_and!; [done..| |done|].
      * by constructor.
      * intros [|room] Hwithin Hle; [done|]. lia.
  - done.
  - rewrite step_null_target. simpl.
    destruct (IH s ps) as
      (s' & ps' & kept & Hrun & Hok' & Hpend' & Hps' & Hsub & Hlog & Hcap);
      [done..|].
    exists s', ps', kept. by split_and!.
  - rewrite step_null_target. simpl.
    destruct (IH s ps) as
      (s' & ps' & kept & Hrun & Hok' & Hpend' & Hps' & Hsub & Hlog & Hcap);
      [done..|].
    exists s', ps', kept. by split_and!.
  - cbn [step]. rewrite (receive_and_print_stored _ ps) by done. simpl.
    set (s1 := System _ _).
    destruct (IH s1 []) as
      (s' & ps' & kept & Hrun & Hok' & Hpend' & Hps' & Hsub & Hlog & Hcap).
    + done.
    + destruct Hok as [Hl Hp]. split; [done|]. simpl. unfold QUEUELEN. lia.
    + done.
    + constructor.
    + exists s', ps', kept. split_and!; [done..| |].
      * rewrite Hlog. unfold s1. simpl. by rewrite <- app_assoc.
      * intros room Hwithin _. apply (Hcap _ Hwithin). simpl. lia.
Qed.

(** X1: after one round of the receiver an immediate second round prints
    nothing and leaves the queue as the first left it: no message is printed
    twice, although the slots keep their bytes. *)
Theorem second_round_prints_nothing (q q' : queue) (out : list cstr) :
  receive_and_print q = Some (out, q') →
  receive_and_print q' = Some ([], q').
Proof.
  intros Hrp. unfold receive_and_print in Hrp.
  destruct (_ <? _); [done|].
  destruct (mapM print_message (pending q)); simplify_eq/=.
  unfold receive_and_print. simpl.
  destruct (_ <? 0) eqn:Hc; [apply Z.ltb_lt in Hc; lia|]. done.
Qed.

Lemma second_round_prints_nothing_witness :
  ∃ q1 q2,
    enqueue_message (Some (lit "a")) (Some (lit "x")) queue_init = Some q1
    ∧ receive_and_print q1 = Some ([lit "a: x"], q2)
    ∧ receive_and_print q2 = Some ([], q2).
Proof.
  destruct (enqueue_message (Some (lit "a")) (Some (lit "x")) queue_init)
    as [q1|] eqn:Henq; [|vm_compute in Henq; discriminate].
  destruct (receive_and_print q1) as [[out q2]|] eqn:Hrp.
  - exists q1, q2. split; [reflexivity|]. split.
    + vm_compute in Henq. injection Henq as <-.
      vm_compute in Hrp. injection Hrp as <- <-. reflexivity.
    + exact (second_round_prints_nothing q1 q2 out Hrp).
  - vm_compute in Henq. injection Henq as <-. vm_compute in Hrp.
    discriminate.
Defined.

(** X2: in an execution of fitting calls, what has been printed followed by
    what waits in the queue is a selection of the calls that had a target,
    in the order they were made: the queue never reorders, repeats or
    invents a message; it can only drop some. *)
Theorem printed_in_call_order (ops : list op) :
  Forall fits ops →
  ∃ s waiting kept,
    run ops system_init = Some s
    ∧ pending (shared s) = stored <$> waiting
    ∧ stdout s ++ (line_of <$> waiting) = line_of <$> kept
    ∧ kept `sublist_of` proper_calls ops.
Proof.
  intros Hfits.
  destruct (run_log ops system_init [] Hfits queue_ok_init eq_refl)
    as (s & ps & kept & Hrun & _ & Hpend & _ & Hsub & Hlog & _);
    [constructor|].
  by exists s, ps, kept.
Qed.

Lemma printed_in_call_order_witness :
  let ops := [Enqueue 0 (Some (lit "a")) (Some (lit "x")); Drain;
              Enqueue 1 (Some (lit "b")) (Some (lit "y"))] in
  ∃ s waiting kept,
    run ops system_init = Some s
    ∧ pending (shared s) = stored <$> waiting
    ∧ stdout s ++ (line_of <$> waiting) = line_of <$> kept
    ∧ kept `sublist_of` [(lit "a", lit "x"); (lit "b", lit "y")].
Proof.
  intros ops. apply (printed_in_call_order ops).
  constructor; [split_and!; simpl; [decide_closed..|reflexivity|reflexivity]|].
  constructor; [exact I|].
  constructor; [split_and!; simpl; [decide_closed..|reflexivity|reflexivity]|].
  constructor.
Defined.

(** X3: when no more than [QUEUELEN] calls with a target arrive between two
    rounds of the receiver, nothing is lost: after one more round the output
    is the line of every such call, in the order of the calls, and the queue
    is empty. *)
Theorem nothing_lost_within_capacity (ops : list op) :
  Forall fits ops → within_capacity (Z.to_nat QUEUELEN) ops = true →
  ∃ s s',
    run ops system_init = Some s ∧ step Drain s = Some s'
    ∧ stdout s' = line_of <$> proper_calls ops
    ∧ pending (shared s') = [].
Proof.
  intros Hfits Hwithin.
  destruct (run_log ops system_init [] Hfits queue_ok_init eq_refl)
    as (s & ps & kept & Hrun & Hok & Hpend & Hps & _ & Hlog & Hcap);
    [constructor|].
  rewrite (Hcap _ Hwithin) in Hlog by (simpl; lia).
  exists s. eexists. split; [done|]. cbn [step].
  rewrite (receive_and_print_stored _ ps) by done. simpl.
  split; [reflexivity|]. simpl. by rewrite Hlog.
Qed.

Lemma nothing_lost_within_capacity_witness :
  let ops := [Enqueue 0 (Some (lit "a")) (Some (lit "x")); Enqueue 0 None None;
              Enqueue 1 (Some (lit "b")) (Some (lit "y"))] in
  ∃ s s',
    run ops system_init = Some s ∧ step Drain s = Some s'
    ∧ stdout s' = [lit "a: x"; lit "b: y"].
Proof.
  intros ops.
  destruct (nothing_lost_within_capacity ops) as (s & s' & Hrun & Hstep & Hout & _).
  - constructor;
      [split_and!; simpl; [decide_closed..|reflexivity|reflexivity]|].
    constructor; [exact I|].
    constructor;
      [split_and!; simpl; [decide_closed..|reflexivity|reflexivity]|].
    constructor.
  - reflexivity.
  - exists s, s'. split; [exact Hrun|]. split; [exact Hstep|exact Hout].
Defined.

(** X4: cutting an overlong string is not harmless.  A target or a text of
    [STRLEN] characters or more is stored without terminator, and the next
    round of the receiver hands that buffer to [printf("%s")]: undefined
    behaviour. *)
Theorem overlong_string_breaks_receiver (t m : cstr) (q : queue) :
  queue_ok q → queue_pos q < QUEUELEN →
  (NUL ∉ t) ∧ STRLEN ≤ Z.of_nat (length t)
  ∨ (NUL ∉ m) ∧ STRLEN ≤ Z.of_nat (length m) →
  ∃ q', enqueue_message (Some t) (Some m) q = Some q'
        ∧ receive_and_print q' = None.
Proof.
  intros Hok Hroom Hlong. eexists. split; [by apply enqueue_message_store|].
  assert (print_message (stored (t, m)) = None) as Hprint.
  { unfold print_message, stored. simpl.
    destruct Hlong as [[Ht Hlen]|[Hm Hlen]].
    - rewrite (c_str_strncpy t) by done. by rewrite decide_False by lia.
    - destruct (c_str (strncpy t STRLEN)); [|done]. simpl.
      rewrite (c_str_strncpy m) by done. by rewrite decide_False by lia. }
  unfold receive_and_print. rewrite pending_store by done. simpl.
  destruct Hok as [Hlen [Hlo Hhi]].
  destruct (_ <? _) eqn:Hc;
    [apply Z.ltb_lt in Hc; rewrite length_insert in Hc; lia|].
  rewrite (mapM_None_2 print_message); [done|].
  apply Exists_app. right. by constructor.
Qed.

Lemma overlong_string_breaks_receiver_witness :
  ∃ q', enqueue_message (Some (replicate 256 "a"%char)) (Some (lit "x"))
          queue_init = Some q'
        ∧ receive_and_print q' = None.
Proof.
  apply overlong_string_breaks_receiver.
  - apply queue_ok_init.
  - reflexivity.
  - left. split; [decide_closed|]. vm_compute. discriminate.
Defined.




(** ** The worker *)

Lemma enqueue_message_effect (t m : cstr) (q : queue) :
  queue_ok q →
  ∃ q' new,
    enqueue_message (Some t) (Some m) q = Some q' ∧ queue_ok q'
    ∧ pending q' = pending q ++ new
    ∧ (new = [] ∨ new = [stored (t, m)]).
Proof.
  intros Hok. destruct (decide (queue_pos q < QUEUELEN)) as [Hroom|Hfull].
  - eexists _, [stored (t, m)].
    split; [by apply enqueue_message_store|]. split_and!.
    + eapply (enqueue_message_ok (Some t) (Some m)); [exact Hok|].
      by apply enqueue_message_store.
    + by apply pending_store.
    + by right.
  - exists q, []. split; [apply enqueue_message_full; lia|].
    split_and!; [done|by rewrite app_nil_r|by left].
Qed.

Lemma length_fmt_d (z : Z) : (1 ≤ length (fmt_d z))%nat.
Proof.
  unfold fmt_d, lit, NilZero.string_of_int.
  destruct (Z.to_int z) as [d|d]; [|simpl; lia].
  destruct d; simpl; lia.
Qed.

Section WorkerEffects.

Context `{Extractor}.

Lemma ping_message_effect (pingres : ping_t) (line : cstr) (q : queue) :
  queue_ok q →
  ∃ pingres' text q' new,
    ping_message pingres line q = Some (pingres', text, q')
    ∧ queue_ok q' ∧ ping_target pingres' = ping_target pingres
    ∧ pending q' = pending q ++ new
    ∧ Forall (λ e, msg_target e = strncpy (ping_target pingres) STRLEN) new
    ∧ (length new ≤ 1)%nat.
Proof.
  intros Hok. unfold ping_message.
  destruct (extract_seq line) as [[seq t]|].
  { eexists _, _, q, []. split; [done|].
    split_and!; [done..|by rewrite app_nil_r|constructor|simpl; lia]. }
  destruct (extract_packets line) as [[sent recv]|].
  { simpl.
    destruct (enqueue_message_effect (ping_target pingres)
                (packets_text sent recv (loss_percent sent recv)) q Hok)
      as (q' & new & -> & Hok' & Hpend & Hnew).
    simpl. eexists _, _, q', new. split; [done|].
    split_and!; [done..| |].
    - destruct Hnew as [->| ->]; repeat constructor.
    - destruct Hnew as [->| ->]; simpl; lia. }
  destruct (extract_stats line) as [[[[min avg] max] stdev]|].
  { simpl.
    destruct (enqueue_message_effect (ping_target pingres)
                (stats_text min avg max stdev) q Hok)
      as (q' & new & -> & Hok' & Hpend & Hnew).
    simpl. eexists _, _, q', new. split; [done|].
    split_and!; [done..| |].
    - destruct Hnew as [->| ->]; repeat constructor.
    - destruct Hnew as [->| ->]; simpl; lia. }
  rewrite enqueue_message_null. simpl. eexists _, _, q, []. split; [done|].
  split_and!; [done..|by rewrite app_nil_r|constructor|simpl; lia].
Qed.

Lemma exec_ping_loop_effect (pingres : ping_t) (lines : list cstr)
    (q : queue) :
  queue_ok q →
  ∃ pingres' q' new,
    exec_ping_loop pingres lines q = Some (pingres', q')
    ∧ queue_ok q' ∧ ping_target pingres' = ping_target pingres
    ∧ pending q' = pending q ++ new
    ∧ Forall (λ e, msg_target e = strncpy (ping_target pingres) STRLEN) new
    ∧ (length new ≤ length lines)%nat.
Proof.
  revert pingres q. induction lines as [|line lines IH]; intros pingres q Hok.
  { exists pingres, q, []. split; [done|].
    split_and!; [done..|by rewrite app_nil_r|constructor|done]. }
  destruct (ping_message_effect pingres line q Hok)
    as (p1 & text & q1 & new1 & Hpm & Hok1 & Htg1 & Hpend1 & Hnew1 & Hlen1).
  destruct (IH p1 q1 Hok1)
    as (p2 & q2 & new2 & Hloop & Hok2 & Htg2 & Hpend2 & Hnew2 & Hlen2).
  exists p2, q2, (new1 ++ new2). cbn [exec_ping_loop]. rewrite Hpm. simpl.
  split; [done|]. split_and!.
  - done.
  - congruence.
  - by rewrite Hpend2, Hpend1, app_assoc.
  - apply Forall_app. split; [done|]. by rewrite <- Htg1.
  - rewrite length_app. simpl. lia.
Qed.

(** X6: a worker whose command fits its buffer runs to its end whatever
    lines the pipe delivers: it leaves the messages already waiting where
    they are and appends at most one message per line, each under the target
    of its own task. *)
Theorem worker_publishes_under_its_target
    (popen : cstr → option (list cstr)) (task : task_t) (q : queue) :
  Z.of_nat (length (ping_cmd task)) < STRLEN → queue_ok q →
  ∃ err q' new,
    exec_ping popen task q = Some (err, q') ∧ queue_ok q'
    ∧ pending q' = pending q ++ new
    ∧ Forall (λ e, msg_target e = strncpy (task_target task) STRLEN) new
    ∧ (length new ≤ length (default [] (popen (ping_cmd task))))%nat.
Proof.
  intros Hcmd Hok. unfold exec_ping.
  destruct (STRLEN <=? _) eqn:Hc; [lia|].
  destruct (popen (ping_cmd task)) as [lines|]; simpl.
  - destruct (exec_ping_loop_effect (pingres_init (task_target task)) lines
                q Hok)
      as (p' & q' & new & -> & Hok' & _ & Hpend & Hnew & Hlen).
    simpl. by exists [], q', new.
  - exists [lit "Error openning pipe"], q, []. split; [done|].
    split_and!; [done|by rewrite app_nil_r|constructor|done].
Qed.

(** X7: only summaries are published.  When every line the pipe delivers is
    a reply or a line no extractor accepts, the worker ends without having
    touched the queue. *)
Theorem only_summaries_are_published
    (popen : cstr → option (list cstr)) (task : task_t) (q : queue)
    (lines : list cstr) :
  Z.of_nat (length (ping_cmd task)) < STRLEN →
  popen (ping_cmd task) = Some lines →
  Forall (λ line, ¬ published line) lines →
  exec_ping popen task q = Some ([], q).
Proof.
  intros Hcmd Hpopen Hlines. unfold exec_ping.
  destruct (STRLEN <=? _) eqn:Hc; [lia|]. rewrite Hpopen.
  assert (∀ pingres, exec_ping_loop pingres lines q = Some (pingres, q))
    as ->; [|done].
  clear Hpopen Hc Hcmd.
  induction Hlines as [|line lines Hline _ IH]; intros pingres; [done|].
  cbn [exec_ping_loop]. unfold ping_message, published in *.
  destruct (extract_seq line) as [[seq t]|]; [simpl; apply IH|].
  destruct (extract_packets line) as [[sent recv]|];
    [destruct Hline; split; [done|left; by eexists]|].
  destruct (extract_stats line) as [[[[min avg] max] stdev]|];
    [destruct Hline; split; [done|right; by eexists]|].
  rewrite enqueue_message_null. simpl. apply IH.
Qed.

(** X8: [cmd] has room for [STRLEN - 1] characters, of which the fixed
    part and the count take ten or more: with a target of [STRLEN - 10]
    characters or more the [sprintf] of [exec_ping] writes past the buffer,
    before any pipe is opened. *)
Theorem long_target_overflows_cmd (popen : cstr → option (list cstr))
    (target : cstr) (timeout counts : Z) (q : queue) :
  STRLEN - 10 ≤ Z.of_nat (length target) →
  exec_ping popen (Task target timeout counts) q = None.
Proof.
  intros Hlong. unfold exec_ping, ping_cmd.
  cbn [task_target task_counts].
  rewrite !length_app. pose proof (length_fmt_d counts) as Hd.
  change (length (lit "ping -c ")) with 8%nat.
  change (length (lit " ")) with 1%nat.
  destruct (STRLEN <=? _) eqn:Hc; [done|].
  apply Z.leb_gt in Hc. unfold STRLEN in *. lia.
Qed.

End WorkerEffects.

Lemma worker_publishes_under_its_target_witness :
  ∃ err q',
    exec_ping (H := sample_extractor) sample_popen (Task (lit "a") 1000 10)
      queue_init = Some (err, q')
    ∧ Forall (λ e, msg_target e = strncpy (lit "a") STRLEN) (pending q').
Proof.
  destruct (worker_publishes_under_its_target (H := sample_extractor)
              sample_popen (Task (lit "a") 1000 10) queue_init)
    as (err & q' & new & Hrun & _ & Hpend & Hnew & _).
  - vm_compute. reflexivity.
  - apply queue_ok_init.
  - exists err, q'. split; [exact Hrun|]. rewrite Hpend. exact Hnew.
Defined.

Lemma only_summaries_are_published_witness :
  exec_ping (H := sample_extractor) sample_popen (Task (lit "b") 1000 10)
    queue_init = Some ([], queue_init).
Proof.
  apply (only_summaries_are_published (H := sample_extractor) sample_popen
           (Task (lit "b") 1000 10) queue_init [lit "?"]).
  - vm_compute. reflexivity.
  - reflexivity.
  - constructor; [|constructor]. intros [_ [[x Hx]|[x Hx]]]; discriminate.
Defined.

Lemma long_target_overflows_cmd_witness :
  exec_ping (H := sample_extractor) sample_popen
    (Task (replicate 246 "a"%char) 1000 10) queue_init = None.
Proof.
  apply (long_target_overflows_cmd (H := sample_extractor)).
  vm_compute. discriminate.
Defined.

(** ** The loss percentage when nothing was sent *)

(** X9: with [sent = 0] the division is by zero and [loss] is never a
    number: it is a NaN or an infinity, whatever [recv] is, and a NaN when
    [recv] is [0] too.  [ping_message] publishes the line all the same. *)
Theorem loss_of_nothing_sent `{Extractor} (pingres : ping_t) (line : cstr)
    (q : queue) (recv : Z) :
  extract_seq line = None → extract_packets line = Some (0, recv) →
  (loss_percent 0 recv = S754_nan
   ∨ ∃ s, loss_percent 0 recv = S754_infinity s)
  ∧ (recv = 0 → loss_percent 0 recv = S754_nan)
  ∧ ping_message pingres line q
    = q' ← enqueue_message (Some (ping_target pingres))
           (Some (packets_text 0 recv (loss_percent 0 recv))) q;
      Some (Ping (ping_target pingres) 0 recv (ping_min pingres)
              (ping_avg pingres) (ping_max pingres) (ping_stdev pingres),
            packets_text 0 recv (loss_percent 0 recv), q').
Proof.
  intros Hseq Hpk. split_and!.
  - unfold loss_percent.
    generalize (SFmul 53 1024 (double_of_int recv) (double_of_int 100)).
    intros [s|s| |s m e]; try destruct s; vm_compute; eauto.
  - intros ->. vm_compute. reflexivity.
  - unfold ping_message. by rewrite Hseq, Hpk.
Qed.

Lemma loss_of_nothing_sent_witness :
  loss_percent 0 3 = S754_infinity true
  ∧ (loss_percent 0 3 = S754_nan ∨ ∃ s, loss_percent 0 3 = S754_infinity s).
Proof.
  split; [vm_compute; reflexivity|].
  apply (loss_of_nothing_sent
           (H := Build_Extractor (λ _, None) (λ _, Some (0, 3)) (λ _, None))
           (pingres_init []) [] queue_init 3 eq_refl eq_refl).
Defined.

(** ** The orchestrator: every way out of [launch_workers] *)

Lemma create_workers_false (os : threads) (timeout counts : Z) (i : nat)
    (targets : list cstr) (evs : list event) :
  create_workers os timeout counts i targets = (evs, false) →
  ∃ k, (k < length targets)%nat ∧ worker_created os (i + k) = false
       ∧ evs = started timeout counts i (take k targets)
               ++ [create_error (i + k)].
Proof.
  revert i evs. induction targets as [|t targets IH]; intros i evs Hcw.
  { done. }
  cbn [create_workers] in Hcw. destruct (worker_created os i) eqn:Hi.
  - destruct (create_workers os timeout counts (S i) targets)
      as [evs' ok] eqn:Hrest. simplify_eq.
    destruct (IH (S i) evs' Hrest) as (k & Hk & Hfail & ->).
    exists (S k). replace (i + S k)%nat with (S i + k)%nat by lia.
    split_and!; [simpl; lia|done|].
    unfold started. cbn [take]. rewrite imap_cons, Nat.add_0_r.
    rewrite <- app_comm_cons. do 2 f_equal.
    apply imap_ext. intros j x _. simpl. f_equal. lia.
  - simplify_eq. exists 0%nat. rewrite Nat.add_0_r.
    split_and!; [simpl; lia|done|done].
Qed.

Lemma started_not_after_start (timeout counts : Z) (i : nat)
    (targets : list cstr) :
  Forall (λ ev, after_start ev = false) (started timeout counts i targets).
Proof.
  revert i. induction targets as [|t targets IH]; intros i; [constructor|].
  unfold started. rewrite imap_cons. constructor; [done|].
  rewrite (imap_ext _
             (λ k target, Worker_started (S i + k)
                            (Task target timeout counts)));
    [apply (IH (S i))|].
  intros k x _. simpl. f_equal. lia.
Qed.

(** X10: [launch_workers] has two ways out.  It returns, always [1], exactly
    when the receiver thread and the thread of every target could be
    created.  Otherwise it ends the process with [EXIT_FAILURE], and on that
    way it has waited for no worker, has not stopped the receiver and has
    not destroyed the mutex; the last thing it did was to write an error
    message. *)
Theorem launch_workers_outcome (os : threads) (targets : list cstr)
    (timeout counts : Z) :
  let r := launch_workers os targets timeout counts in
  (r.2 = Returned 1
   ↔ receiver_created os = true
     ∧ ∀ i, (i < length targets)%nat → worker_created os i = true)
  ∧ (r.2 ≠ Returned 1 →
     r.2 = Exited EXIT_FAILURE
     ∧ Forall (λ ev, after_start ev = false) r.1
     ∧ ∃ text, last r.1 = Some (Stderr text)).
Proof.
  intros r. subst r. unfold launch_workers.
  pose proof (create_workers_ok os timeout counts 0 targets) as Hok.
  destruct (receiver_created os).
  - destruct (create_workers os timeout counts 0 targets) as [evs [|]] eqn:Hcw;
      simpl in *.
    + split; [|done]. split; [|done]. intros _. split; [done|].
      by apply Hok.
    + split.
      * split; [done|]. intros [_ Hall].
        assert (false = true) by by apply Hok. done.
      * intros _. split; [done|].
        apply create_workers_false in Hcw as (k & _ & _ & ->). split.
        -- constructor; [done|]. apply Forall_app. split.
           ++ apply started_not_after_start.
           ++ by repeat constructor.
        -- eexists. rewrite app_comm_cons. apply last_snoc.
  - simpl. split; [split; [done|by intros [? _]]|].
    intros _. split; [done|]. split; [by repeat constructor|]. by eexists.
Qed.

Lemma launch_workers_outcome_witness :
  (launch_workers threads_fine [lit "a"; lit "b"] 1000 10).2 = Returned 1
  ∧ Forall (λ ev, after_start ev = false)
           (launch_workers threads_first_fails [lit "a"; lit "b"] 1000 10).1.
Proof.
  destruct (launch_workers_outcome threads_fine [lit "a"; lit "b"] 1000 10)
    as [[_ Hret] _].
  destruct (launch_workers_outcome threads_first_fails [lit "a"; lit "b"]
              1000 10) as [_ Hexit].
  split.
  - apply Hret. split; reflexivity.
  - apply Hexit. vm_compute. discriminate.
Defined.

(** ** [main]: from the options to the workers *)

Lemma read_options_values `{Library} (opts : list getopt)
    (targets targets' : option cstr) (timeout counts timeout' counts' : Z) :
  read_options opts targets timeout counts
  = Some (targets', timeout', counts') →
  timeout' = match last_timeout opts with
             | Some optarg => from_option atoi 1000 optarg
             | None => timeout
             end
  ∧ counts' = match last_counts opts with
              | Some optarg => from_option atoi 10 optarg
              | None => counts
              end.
Proof.
  revert targets timeout counts.
  induction opts as [|o opts IH]; intros targets timeout counts Hread.
  { by simplify_eq/=. }
  destruct o as [optarg|optarg|optarg|];
    cbn [read_options last_timeout last_counts] in *.
  - by apply IH in Hread.
  - apply IH in Hread as [-> ->]. split; [done|].
    by destruct (last_counts opts).
  - apply IH in Hread as [-> ->]. split; [|done].
    by destruct (last_timeout opts).
  - done.
Qed.



(** X12: with a good configuration and every thread created, [main] starts
    one worker for each piece of the list of the last [-t], in the order of
    the pieces; each task carries the counts of the last [-c] and the
    timeout of the last [-o], the defaults [10] and [1000] standing in for
    an option that is absent or came without a value; then every worker is
    waited for and the process ends with the success status. *)
Theorem main_starts_configured_workers `{Library} (os : threads)
    (usage : cstr) (opts : list getopt) (targets : cstr) :
  let tokens := new_string_vector targets ","%char in
  let timeout := option_value 1000 (last_timeout opts) in
  let counts := option_value 10 (last_counts opts) in
  Opt_other ∉ opts → last_targets opts = Some targets →
  receiver_created os = true →
  (∀ i, (i < length tokens)%nat → worker_created os i = true) →
  main os usage opts
  = (Receiver_started :: started timeout counts 0 tokens
       ++ join_workers os (length tokens)
       ++ [Sleep 1; Receiver_cancelled; Mutex_destroyed],
     EXIT_SUCCESS)
  ∧ ∀ i token, tokens !! i = Some token →
      Worker_started i (Task token timeout counts) ∈ (main os usage opts).1.
Proof.
  intros tokens timeout counts Hno Htg Hrecv Hall.
  assert (main os usage opts
          = (Receiver_started :: started timeout counts 0 tokens
               ++ join_workers os (length tokens)
               ++ [Sleep 1; Receiver_cancelled; Mutex_destroyed],
             EXIT_SUCCESS)) as Hmain.
  { unfold main.
    pose proof (read_options_spec opts None 1000 10) as Hopts.
    destruct (read_options opts None 1000 10)
      as [[[tg t] c]|] eqn:Hread; [|done].
    destruct Hopts as [_ ->]. rewrite Htg.
    apply read_options_values in Hread as [-> ->].
    unfold launch_workers. rewrite Hrecv.
    rewrite create_workers_all by done.
    subst timeout counts. unfold option_value.
    destruct (last_timeout opts), (last_counts opts); done. }
  split; [exact Hmain|]. intros i token Hi. rewrite Hmain. simpl.
  right. apply elem_of_app. left. unfold started.
  apply list_elem_of_lookup. exists i. rewrite list_lookup_imap, Hi. done.
Qed.

Lemma main_starts_configured_workers_witness :
  main (H := sample_library) threads_fine (lit "Usage")
    [Opt_c (Some (lit "5")); Opt_t (lit "a,b"); Opt_c None]
  = ([Receiver_started;
      Worker_started 0 (Task (lit "a") 1000 10);
      Worker_started 1 (Task (lit "b") 1000 10);
      Worker_waited 0; Worker_waited 1;
      Sleep 1; Receiver_cancelled; Mutex_destroyed],
     EXIT_SUCCESS).
Proof.
  destruct (main_starts_configured_workers (H := sample_library) threads_fine
              (lit "Usage")
              [Opt_c (Some (lit "5")); Opt_t (lit "a,b"); Opt_c None]
              (lit "a,b")) as [Hmain _].
  - intros Hin. repeat (apply elem_of_cons in Hin as [Hin|Hin]; [done|]).
    by apply elem_of_nil in Hin.
  - reflexivity.
  - reflexivity.
  - reflexivity.
  - exact Hmain.
Defined.

(** ** A burst of calls, then a round of the receiver *)

(** X14: when any number of fitting entries is enqueued into the empty
    queue with no round of the receiver in between, [queue_pos] ends at the
    number of entries or at [QUEUELEN], whichever is smaller, and the next
    round prints the lines of the first [QUEUELEN] entries, oldest first:
    what overflows is the newest, and it is gone for good. *)
Theorem burst_prints_first_QUEUELEN (es : list (cstr * cstr)) :
  Forall fits_pair es →
  ∃ q q',
    enqueue_all (entry <$> es) queue_init = Some q
    ∧ queue_pos q = Z.min (Z.of_nat (length es)) QUEUELEN
    ∧ receive_and_print q
      = Some (line_of <$> take (Z.to_nat QUEUELEN) es, q')
    ∧ pending q' = [].
Proof.
  intros Hfit.
  destruct (enqueue_all_entries es queue_init queue_ok_init)
    as (q & Hrun & Hok & Hpend).
  change (pending queue_init) with (@nil message_t) in Hpend.
  rewrite app_nil_l, <- fmap_take in Hpend.
  exists q. eexists. split; [done|]. split_and!.
  - pose proof (length_pending q Hok) as Hlen.
    rewrite Hpend, length_fmap, length_take in Hlen.
    destruct Hok as [_ Hpos]. lia.
  - apply receive_and_print_stored; [done..|]. by apply Forall_take.
  - done.
Qed.

Lemma burst_prints_first_QUEUELEN_witness :
  ∃ q q',
    enqueue_all (entry <$> replicate 101 (lit "a", lit "x")) queue_init
    = Some q
    ∧ queue_pos q = 100
    ∧ receive_and_print q = Some (replicate 100 (lit "a: x"), q').
Proof.
  destruct (burst_prints_first_QUEUELEN (replicate 101 (lit "a", lit "x")))
    as (q & q' & Hrun & Hpos & Hrp & _).
  - apply Forall_replicate.
    split_and!; simpl; [decide_closed..|reflexivity|reflexivity].
  - exists q, q'. split; [exact Hrun|]. split; [exact Hpos|exact Hrp].
Defined.

(** ** A worker, then a round of the receiver *)

Lemma exec_ping_loop_summaries `{Extractor} (pingres : ping_t)
    (lines : list cstr) (q : queue) (ps : list (cstr * cstr)) :
  queue_ok q → pending q = stored <$> ps →
  (length ps + length (omap summary_text lines) ≤ Z.to_nat QUEUELEN)%nat →
  ∃ pingres' q',
    exec_ping_loop pingres lines q = Some (pingres', q') ∧ queue_ok q'
    ∧ pending q'
      = stored <$> (ps ++ (pair (ping_target pingres)
                             <$> omap summary_text lines)).
Proof.
  revert pingres q ps.
  induction lines as [|line lines IH]; intros pingres q ps Hok Hpend Hroom.
  { exists pingres, q. by rewrite app_nil_r. }
  assert (length ps = Z.to_nat (queue_pos q)) as Hlen
    by (rewrite <- (length_pending _ Hok), Hpend; by rewrite length_fmap).
  cbn [exec_ping_loop omap list_omap] in *.
  unfold ping_message, summary_text in *.
  destruct (extract_seq line) as [[seq t]|]; [simpl; by apply IH|].
  destruct (extract_packets line) as [[sent recv]|].
  { simpl in *. rewrite enqueue_message_store by (done || lia). simpl.
    set (text := packets_text sent recv (loss_percent sent recv)) in *.
    destruct (IH (Ping (ping_target pingres) sent recv (ping_min pingres)
                    (ping_avg pingres) (ping_max pingres)
                    (ping_stdev pingres))
                 (Queue (<[Z.to_nat (queue_pos q) :=
                            stored (ping_target pingres, text)]>
                           (message_queue q)) (queue_pos q + 1))
                 (ps ++ [(ping_target pingres, text)]))
      as (p' & q' & Hloop & Hok' & Hpend').
    - eapply (enqueue_message_ok (Some (ping_target pingres)) (Some text));
        [exact Hok|]. apply enqueue_message_store; [done|lia].
    - rewrite pending_store by (done || lia). by rewrite Hpend, fmap_app.
    - rewrite length_app. simpl. lia.
    - exists p', q'. split_and!; [done..|].
      rewrite Hpend'. simpl. by rewrite <- app_assoc. }
  destruct (extract_stats line) as [[[[min avg] max] stdev]|].
  { simpl in *. rewrite enqueue_message_store by (done || lia). simpl.
    set (text := stats_text min avg max stdev) in *.
    destruct (IH (Ping (ping_target pingres) (ping_sent pingres)
                    (ping_recv pingres) min avg max stdev)
                 (Queue (<[Z.to_nat (queue_pos q) :=
                            stored (ping_target pingres, text)]>
                           (message_queue q)) (queue_pos q + 1))
                 (ps ++ [(ping_target pingres, text)]))
      as (p' & q' & Hloop & Hok' & Hpend').
    - eapply (enqueue_message_ok (Some (ping_target pingres)) (Some text));
        [exact Hok|]. apply enqueue_message_store; [done|lia].
    - rewrite pending_store by (done || lia). by rewrite Hpend, fmap_app.
    - rewrite length_app. simpl. lia.
    - exists p', q'. split_and!; [done..|].
      rewrite Hpend'. simpl. by rewrite <- app_assoc. }
  rewrite enqueue_message_null. simpl. by apply IH.
Qed.

(** X13: a worker and the receiver, end to end.  When the worker starts on
    the empty queue, its output has at most [QUEUELEN] summary lines, and the
    target and the summary texts are C strings that fit the buffers, then
    the worker runs to its end and the next round of the receiver prints one
    line for each summary line, in their order, made of the target, [": "]
    and the summary text; replies and unknown lines leave no trace. *)
Theorem worker_then_receiver `{Extractor}
    (popen : cstr → option (list cstr)) (task : task_t)
    (lines : list cstr) :
  let texts := omap summary_text lines in
  Z.of_nat (length (ping_cmd task)) < STRLEN →
  popen (ping_cmd task) = Some lines →
  (length texts ≤ Z.to_nat QUEUELEN)%nat →
  NUL ∉ task_target task →
  Forall (λ text, (NUL ∉ text) ∧ Z.of_nat (length text) < STRLEN) texts →
  ∃ q q',
    exec_ping popen task queue_init = Some ([], q)
    ∧ receive_and_print q
      = Some ((λ text, task_target task ++ lit ": " ++ text) <$> texts, q')
    ∧ pending q' = [].
Proof.
  intros texts Hcmd Hpopen Hroom Htarget Htexts.
  destruct (exec_ping_loop_summaries (pingres_init (task_target task)) lines
              queue_init [] queue_ok_init eq_refl)
    as (p' & q & Hloop & Hok & Hpend); [exact Hroom|].
  exists q. eexists. split_and!.
  - unfold exec_ping. destruct (STRLEN <=? _) eqn:Hc; [lia|].
    rewrite Hpopen, Hloop. done.
  - rewrite (receive_and_print_stored q _ Hok Hpend).
    + rewrite app_nil_l, <- list_fmap_compose. reflexivity.
    + apply Forall_fmap. eapply Forall_impl; [exact Htexts|].
      intros text [Hnul Hlen]. split_and!; [done..| |done]. simpl.
      unfold ping_cmd in Hcmd. rewrite !length_app in Hcmd. lia.
  - done.
Qed.

Lemma worker_then_receiver_witness :
  ∃ q q',
    exec_ping (H := sample_extractor) sample_popen (Task (lit "a") 1000 10)
      queue_init = Some ([], q)
    ∧ receive_and_print q
      = Some ([lit "a: sent: 10 received: 8 loss: 20.0%" ++ [LF]], q').
Proof.
  destruct (worker_then_receiver (H := sample_extractor) sample_popen
              (Task (lit "a") 1000 10)
              [lit "s1"; lit "s2"; lit "s3"; lit "p"])
    as (q & q' & Hrun & Hrp & _).
  - vm_compute. reflexivity.
  - reflexivity.
  - vm_compute. lia.
  - simpl. decide_closed.
  - constructor; [|constructor]. split; [decide_closed|].
    vm_compute. reflexivity.
  - exists q, q'. split; [exact Hrun|exact Hrp].
Defined.
